(** * The SSTable codec of tektite ([sst/sstable.go])

    A shallow embedding of [BuildSSTable], [Serialize], [Deserialize],
    [DeleteRatio] and [findOffset], and the properties of the on-disk
    layout and of the index search that the storage engine relies on.

    Conventions.  A Go [[]byte] is a [list byte]; a Go [int] (64 bits) is a
    [Z], and every conversion to [uint32]/[uint64] is written out as a
    remainder.  A call that can end in three ways in Go (a value, a returned
    [error], a run-time panic) returns an [outcome]. *)

From Stdlib Require Import String Ascii SpecFloat DecimalString.
From Stdlib Require Import ZArith List Lia Bool.
From coqutil Require Import Byte Word.LittleEndianList.
From Equations Require Import Equations.
Import ListNotations.
Local Open Scope Z_scope.

Set Default Goal Selector "!".

(** ** Machine integers *)

Definition MaxUint32 : Z := 4294967295.
Definition MaxUint64 : Z := 18446744073709551615.

Definition uint32 (z : Z) : Z := z mod 2 ^ 32.
Definition uint64 (z : Z) : Z := z mod 2 ^ 64.

(** [len(b)] as a Go [int]. *)
Definition len (b : list byte) : Z := Z.of_nat (length b).

(** ** Outcomes of a call *)

(** An [error] value, as [errors.New(msg)] makes one. *)
Inductive error : Type :=
| errors_New (msg : string).

Inductive panic : Type :=
| KeysNotInOrder          (* panic("keys not in order / contains duplicates") *)
| SliceBounds             (* run-time error: slice bounds out of range *)
| IndexRange.             (* run-time error: index out of range *)

Inductive outcome (A : Type) : Type :=
| Returned (a : A)
| Failed (e : error)
| Panicked (p : panic).
Arguments Returned {A} a.
Arguments Failed {A} e.
Arguments Panicked {A} p.

Definition obind {A B} (o : outcome A) (k : A -> outcome B) : outcome B :=
  match o with
  | Returned a => k a
  | Failed e => Failed e
  | Panicked p => Panicked p
  end.

(** ** Slices *)

(** [b[lo:hi]]; the run-time check of Go is [0 <= lo <= hi <= cap(b)], and the
    model takes the capacity of a buffer to be its length.  The one slice of
    [Deserialize], [buff[:len(buff)-24]], ends below the length, so its check
    is that of Go whatever the capacity; the slices of [findOffset] stay
    within the length on a built table. *)
Definition slice (b : list byte) (lo hi : Z) : option (list byte) :=
  if (0 <=? lo) && (lo <=? hi) && (hi <=? len b)
  then Some (firstn (Z.to_nat (hi - lo)) (skipn (Z.to_nat lo) b))
  else None.

(** [b[i]]. *)
Definition index (b : list byte) (i : Z) : option byte :=
  if (0 <=? i) && (i <? len b) then nth_error b (Z.to_nat i) else None.

(** [b[i] = v] on a buffer that has the index. *)
Fixpoint store (b : list byte) (i : nat) (v : byte) : list byte :=
  match b, i with
  | [], _ => []
  | _ :: t, O => v :: t
  | h :: t, S j => h :: store t j v
  end.

(** [bytes.Compare]: lexicographic on unsigned bytes, -1, 0 or 1. *)
Fixpoint bytes_Compare (a b : list byte) : Z :=
  match a, b with
  | [], [] => 0
  | [], _ :: _ => -1
  | _ :: _, [] => 1
  | x :: a', y :: b' =>
      match byte.unsigned x ?= byte.unsigned y with
      | Lt => -1
      | Gt => 1
      | Eq => bytes_Compare a' b'
      end
  end.

(** ** The integer helpers of package [encoding] *)

Module encoding.

(** Modelled from the spec: package [encoding] (the shared little-endian
    integer encode/decode helpers) is another package of the repository.
    Appending writes the low 4 bytes of the value, least significant first. *)
Definition AppendUint32ToBufferLE (buff : list byte) (v : Z) : list byte :=
  buff ++ le_split 4 v.

(** Modelled from the spec: the 8-byte little-endian append of package
    [encoding]. *)
Definition AppendUint64ToBufferLE (buff : list byte) (v : Z) : list byte :=
  buff ++ le_split 8 v.

(** Modelled from the spec: the 4-byte little-endian read of package
    [encoding]; it yields the value and the offset after it.  The spec fixes
    what is read inside the buffer only: that a read leaving the buffer fails
    ([None]) is a choice of this definition, and what is proved of a damaged
    buffer is proved of [DeserializeWith] below, over every read helper. *)
Definition ReadUint32FromBufferLE (buff : list byte) (offset : Z)
  : option (Z * Z) :=
  match slice buff offset (offset + 4) with
  | Some bs => Some (le_combine bs, offset + 4)
  | None => None
  end.

(** Modelled from the spec: the 8-byte little-endian read of package
    [encoding], with the same choice for a read that leaves the buffer. *)
Definition ReadUint64FromBufferLE (buff : list byte) (offset : Z)
  : option (Z * Z) :=
  match slice buff offset (offset + 8) with
  | Some bs => Some (le_combine bs, offset + 8)
  | None => None
  end.

End encoding.

(** [binary.BigEndian.Uint64(b)]: the first 8 bytes, most significant first. *)
Definition BigEndian_Uint64 (b : list byte) : option Z :=
  if len b <? 8 then None else Some (le_combine (rev (firstn 8 b))).

(** ** Entries and the iterator that supplies them *)

(** Modelled from the spec: an entry ([common.KV], declared in package
    [common]) is a key and a value, both byte sequences. *)
Record KV : Type := mkKV { Key : list byte; Value : list byte }.

(** Modelled from the spec: [iteration.Iterator] is an interface with
    [IsValid() (bool, error)], [Current() KV] and [Next() error], declared
    in package [iteration].  One value of [Iterator] is one finite
    behaviour of such an object as [BuildSSTable] drives it. *)
Inductive Iterator : Type :=
| Exhausted                                   (* IsValid: false, nil *)
| ValidFails (e : error)                      (* IsValid: _, err *)
| Item (kv : KV) (rest : Iterator)            (* true; Current; Next: nil *)
| ItemNextFails (kv : KV) (e : error).        (* true; Current; Next: err *)

Fixpoint iter_of (es : list KV) : Iterator :=
  match es with
  | [] => Exhausted
  | kv :: es' => Item kv (iter_of es')
  end.

(** The entries an iterator hands out through [Current]. *)
Fixpoint items (it : Iterator) : list KV :=
  match it with
  | Exhausted | ValidFails _ => []
  | Item kv rest => kv :: items rest
  | ItemNextFails kv _ => [kv]
  end.

(** ** The table *)

Record SSTable : Type := mkSSTable {
  format       : byte;   (* common.DataFormat *)
  maxKeyLength : Z;   (* uint32 *)
  numEntries   : Z;   (* uint32 *)
  numDeletes   : Z;   (* uint32 *)
  indexOffset  : Z;   (* uint32 *)
  creationTime : Z;   (* uint64 *)
  data         : list byte
}.

(** The zero value [&SSTable{}]. *)
Definition emptySSTable : SSTable := mkSSTable Byte.x00 0 0 0 0 0 [].

Definition appendBytesWithLengthPrefix (buff bytes : list byte) : list byte :=
  encoding.AppendUint32ToBufferLE buff (uint32 (len bytes)) ++ bytes.

(** ** BuildSSTable *)

(** The local variables of the first loop. *)
Record buildState : Type := mkBuildState {
  b_buff         : list byte;
  b_indexEntries : list (list byte * Z);
  b_smallestKey  : list byte;
  b_largestKey   : list byte;
  b_maxVersion   : Z;
  b_minVersion   : Z;
  b_maxKeyLength : Z;
  b_numEntries   : Z;
  b_numDeletes   : Z;
  b_first        : bool;
  b_prevKey      : option (list byte)
}.

Definition initBuild (fmt : byte) : buildState :=
  mkBuildState [fmt; Byte.x00; Byte.x00; Byte.x00; Byte.x00] []
               [] [] 0 MaxUint64 0 0 0 true None.

(** The assignments of one pass of the loop body, given the entry's version. *)
Definition advance (st : buildState) (kv : KV) (version : Z) : buildState :=
  let offset := uint32 (len (b_buff st)) in
  let lk := len (Key kv) in
  {| b_buff := appendBytesWithLengthPrefix
                 (appendBytesWithLengthPrefix (b_buff st) (Key kv)) (Value kv);
     b_indexEntries := b_indexEntries st ++ [(Key kv, offset)];
     b_smallestKey := if b_first st then Key kv else b_smallestKey st;
     b_largestKey := Key kv;
     b_maxVersion := if b_maxVersion st <? version
                     then version else b_maxVersion st;
     b_minVersion := if version <? b_minVersion st
                     then version else b_minVersion st;
     b_maxKeyLength := if b_maxKeyLength st <? lk
                       then lk else b_maxKeyLength st;
     b_numEntries := b_numEntries st + 1;
     b_numDeletes := if len (Value kv) =? 0
                     then b_numDeletes st + 1 else b_numDeletes st;
     b_first := false;
     b_prevKey := Some (Key kv) |}.

(** The sanity check on key order: [prevKey != nil &&
    bytes.Compare(prevKey, kv.Key) >= 0]. *)
Definition outOfOrder (prevKey : option (list byte)) (key : list byte) : bool :=
  match prevKey with
  | Some p => 0 <=? bytes_Compare p key
  | None => false
  end.

(** One pass of the loop body between [iter.Current()] and [iter.Next()]: the
    order check panics first, the version slice [kv.Key[len(kv.Key)-8:]]
    second.  [prevKey] is [None] for Go's [nil]; a key that is itself [nil]
    has length 0 and stops at the version slice in the same pass, as an empty
    one does. *)
Definition buildStep (st : buildState) (kv : KV) : outcome buildState :=
  if outOfOrder (b_prevKey st) (Key kv)
  then Panicked KeysNotInOrder
  else
    let lk := len (Key kv) in
    match slice (Key kv) (lk - 8) lk with
    | None => Panicked SliceBounds
    | Some tail =>
        match BigEndian_Uint64 tail with
        | None => Panicked IndexRange
        | Some w => Returned (advance st kv (MaxUint64 - w))
        end
    end.

(** The first loop: [for { IsValid; Current; ...; Next }]. *)
Fixpoint buildLoop (it : Iterator) (st : buildState) : outcome buildState :=
  match it with
  | Exhausted => Returned st
  | ValidFails e => Failed e
  | Item kv rest => obind (buildStep st kv) (buildLoop rest)
  | ItemNextFails kv e => obind (buildStep st kv) (fun _ => Failed e)
  end.

(** One pass of the second loop: the key, its padding, the entry's offset.
    Both branches of the padding code extend the buffer with zero bytes: the
    spare capacity of a buffer that was only ever appended to is zero. *)
Definition appendIndexEntry (maxKeyLength : Z) (buff : list byte)
           (entry : list byte * Z) : list byte :=
  let buff := buff ++ fst entry in
  let paddingBytes := maxKeyLength - len (fst entry) in
  let buff := if 0 <? paddingBytes
              then buff ++ repeat Byte.x00 (Z.to_nat paddingBytes)
              else buff in
  encoding.AppendUint32ToBufferLE buff (snd entry).

Definition appendIndex (maxKeyLength : Z) (buff : list byte)
           (entries : list (list byte * Z)) : list byte :=
  fold_left (appendIndexEntry maxKeyLength) entries buff.

(** What [BuildSSTable] returns besides the error. *)
Record built : Type := mkBuilt {
  table       : SSTable;
  smallestKey : list byte;
  largestKey  : list byte;
  minVersion  : Z;
  maxVersion  : Z
}.

(** The tail of [BuildSSTable], from [indexOffset := len(buff)] on.  [now] is
    the reading of [time.Now().UTC().UnixMilli()]. *)
Definition finishBuild (fmt : byte) (now : Z) (st : buildState) : outcome built :=
  let indexOffset := len (b_buff st) in
  let buff := appendIndex (b_maxKeyLength st) (b_buff st) (b_indexEntries st) in
  let metadataOffset := len buff in
  if MaxUint32 <? metadataOffset
  then Failed (errors_New "SSTable too big")
  else
    let buff := store buff 1 (byte.of_Z metadataOffset) in
    let buff := store buff 2 (byte.of_Z (Z.shiftr metadataOffset 8)) in
    let buff := store buff 3 (byte.of_Z (Z.shiftr metadataOffset 16)) in
    let buff := store buff 4 (byte.of_Z (Z.shiftr metadataOffset 24)) in
    Returned
      {| table := {| format := fmt;
                     maxKeyLength := uint32 (b_maxKeyLength st);
                     numEntries := uint32 (b_numEntries st);
                     numDeletes := uint32 (b_numDeletes st);
                     indexOffset := uint32 indexOffset;
                     creationTime := uint64 now;
                     data := buff |};
         smallestKey := b_smallestKey st;
         largestKey := b_largestKey st;
         minVersion := b_minVersion st;
         maxVersion := b_maxVersion st |}.

(** [BuildSSTable(format, buffSizeEstimate, entriesEstimate, iter)].  The two
    estimates are the capacities of the initial allocations and do not reach
    the bytes produced. *)
Definition BuildSSTable (fmt : byte) (buffSizeEstimate entriesEstimate : N)
           (iter : Iterator) (now : Z) : outcome built :=
  obind (buildLoop iter (initBuild fmt)) (finishBuild fmt now).

(** ** Serialize *)

Definition Serialize (s : SSTable) : list byte :=
  let buff := encoding.AppendUint32ToBufferLE (data s) (maxKeyLength s) in
  let buff := encoding.AppendUint32ToBufferLE buff (numEntries s) in
  let buff := encoding.AppendUint32ToBufferLE buff (numDeletes s) in
  let buff := encoding.AppendUint32ToBufferLE buff (indexOffset s) in
  encoding.AppendUint64ToBufferLE buff (creationTime s).

(** ** Deserialize *)

(** [Deserialize] assigns the fields of its receiver one after the other, so
    it is a computation over the receiver: the table as left behind, and
    either the returned offset or a panic. *)
Definition M (A : Type) : Type := SSTable -> SSTable * outcome A.

Definition ret {A} (a : A) : M A := fun s => (s, Returned a).

Definition bind {A B} (m : M A) (k : A -> M B) : M B :=
  fun s => match m s with
           | (s', Returned a) => k a s'
           | (s', Failed e) => (s', Failed e)
           | (s', Panicked p) => (s', Panicked p)
           end.

Definition check {A} (p : panic) (o : option A) : M A :=
  fun s => match o with
           | Some a => (s, Returned a)
           | None => (s, Panicked p)
           end.

Definition assign (f : SSTable -> SSTable) : M unit :=
  fun s => (f s, Returned tt).

Declare Scope m_scope.
Delimit Scope m_scope with m.
Notation "x <- m ;; k" := (bind m (fun x => k))
  (at level 61, m at next level, right associativity) : m_scope.
Notation "' p <- m ;; k" := (bind m (fun x => let 'p := x in k))
  (at level 61, p pattern, m at next level, right associativity) : m_scope.
Notation "m ;;; k" := (bind m (fun _ => k))
  (at level 61, right associativity) : m_scope.

Definition set_format v s := mkSSTable v (maxKeyLength s) (numEntries s)
  (numDeletes s) (indexOffset s) (creationTime s) (data s).
Definition set_maxKeyLength v s := mkSSTable (format s) v (numEntries s)
  (numDeletes s) (indexOffset s) (creationTime s) (data s).
Definition set_numEntries v s := mkSSTable (format s) (maxKeyLength s) v
  (numDeletes s) (indexOffset s) (creationTime s) (data s).
Definition set_numDeletes v s := mkSSTable (format s) (maxKeyLength s)
  (numEntries s) v (indexOffset s) (creationTime s) (data s).
Definition set_indexOffset v s := mkSSTable (format s) (maxKeyLength s)
  (numEntries s) (numDeletes s) v (creationTime s) (data s).
Definition set_creationTime v s := mkSSTable (format s) (maxKeyLength s)
  (numEntries s) (numDeletes s) (indexOffset s) v (data s).
Definition set_data v s := mkSSTable (format s) (maxKeyLength s)
  (numEntries s) (numDeletes s) (indexOffset s) (creationTime s) v.

(** What [Deserialize] asks of a read helper of package [encoding]: called
    with the buffer and an offset, the helper yields a value and the offset
    after it, or it panics ([None]). *)
Definition reader : Type := list byte -> Z -> option (Z * Z).

(** A helper decodes [n] bytes little-endian: whenever the [n] bytes from
    [offset] lie inside the buffer, it yields their value and [offset + n].
    Nothing is asked of a read that leaves the buffer. *)
Definition decodesLE (n : Z) (read : reader) : Prop :=
  forall buff offset bs,
    slice buff offset (offset + n) = Some bs ->
    read buff offset = Some (le_combine bs, offset + n).

(** The body of [Deserialize], over the two read helpers it calls.  The
    checks of the body itself are the index [buff[offset]] and the slice
    [buff[:len(buff)-24]]. *)
Definition DeserializeWith (read32 read64 : reader)
           (buff : list byte) (offset : Z) : M Z :=
  (f <- check IndexRange (index buff offset) ;;
   assign (set_format f) ;;;
   let offset := offset + 1 in
   '(metadataOffset, _) <- check SliceBounds (read32 buff offset) ;;
   let offset := metadataOffset in
   '(v, offset) <- check SliceBounds (read32 buff offset) ;;
   assign (set_maxKeyLength v) ;;;
   '(v, offset) <- check SliceBounds (read32 buff offset) ;;
   assign (set_numEntries v) ;;;
   '(v, offset) <- check SliceBounds (read32 buff offset) ;;
   assign (set_numDeletes v) ;;;
   '(v, offset) <- check SliceBounds (read32 buff offset) ;;
   assign (set_indexOffset v) ;;;
   '(v, offset) <- check SliceBounds (read64 buff offset) ;;
   assign (set_creationTime v) ;;;
   d <- check SliceBounds (slice buff 0 (len buff - 24)) ;;
   assign (set_data d) ;;;
   ret offset)%m.

(** [Deserialize] with the helpers of [encoding] as modelled above. *)
Definition Deserialize (buff : list byte) (offset : Z) : M Z :=
  DeserializeWith encoding.ReadUint32FromBufferLE
                  encoding.ReadUint64FromBufferLE buff offset.

(** ** Accessors *)

Definition SizeBytes (s : SSTable) : Z := len (data s) + 24.
Definition NumEntries (s : SSTable) : Z := numEntries s.
Definition NumDeletes (s : SSTable) : Z := numDeletes s.
Definition CreationTime (s : SSTable) : Z := creationTime s.

(** A [float64] is an IEEE 754 binary64 number: 53 bits of precision,
    exponents below 1024. *)
Definition float64 : Type := spec_float.

(** [float64(u)] of a [uint32]: exact, 32 bits fit the mantissa. *)
Definition float64_of_uint32 (u : Z) : float64 :=
  binary_normalize 53 1024 u 0 false.

(** The quotient of two [float64], rounded to nearest even. *)
Definition float64_div (x y : float64) : float64 := SFdiv 53 1024 x y.

Definition DeleteRatio (s : SSTable) : float64 :=
  float64_div (float64_of_uint32 (numDeletes s))
              (float64_of_uint32 (numEntries s)).

(** ** findOffset *)

(** The padded key of index record [i]:
    [s.data[recordStart : recordStart+maxKeyLength]]. *)
Definition recordKey (s : SSTable) (i : Z) : option (list byte) :=
  let recordStart := i * (maxKeyLength s + 4) + indexOffset s in
  slice (data s) recordStart (recordStart + maxKeyLength s).

(** The binary search loop; [None] is an out-of-range slice.  The products
    and sums are those of Go's [int]; on a built table they stay below the
    length of the data buffer. *)
Equations searchLoop (s : SSTable) (key : list byte) (low high : Z)
  : option Z by wf (Z.to_nat (high - low)) lt :=
searchLoop s key low high with Z_lt_dec low high := {
  | left _ =>
      let middle := low + Z.quot (high - low) 2 in
      match recordKey s middle with
      | None => None
      | Some midKey =>
          if bytes_Compare midKey key <? 0
          then searchLoop s key (middle + 1) high
          else searchLoop s key low middle
      end
  | right _ => Some high }.
Next Obligation.
  intros. rewrite Z.quot_div_nonneg by lia.
  assert ((high - low) / 2 < high - low) by (apply Z.div_lt; lia).
  assert (0 <= (high - low) / 2) by (apply Z.div_pos; lia). lia.
Qed.
Next Obligation.
  intros. rewrite Z.quot_div_nonneg by lia.
  assert ((high - low) / 2 < high - low) by (apply Z.div_lt; lia).
  assert (0 <= (high - low) / 2) by (apply Z.div_pos; lia). lia.
Qed.

Definition findOffset (s : SSTable) (key : list byte) : outcome Z :=
  let outerHighBound := numEntries s - 1 in
  match searchLoop s key 0 outerHighBound with
  | None => Panicked SliceBounds
  | Some high =>
      let readOffset :=
        let recordStart := high * (maxKeyLength s + 4) + indexOffset s in
        let valueStart := recordStart + maxKeyLength s in
        match encoding.ReadUint32FromBufferLE (data s) valueStart with
        | None => Panicked SliceBounds
        | Some (off, _) => Returned off
        end in
      if high =? outerHighBound
      then match recordKey s high with
           | None => Panicked SliceBounds
           | Some highKey =>
               if bytes_Compare highKey key <? 0 then Returned (-1)
               else readOffset
           end
      else readOffset
  end.

(** ** The layout in terms of the entries *)

(** The version a key carries: [MaxUint64] minus the big-endian value of its
    last 8 bytes. *)
Definition keyVersion (key : list byte) : Z :=
  MaxUint64 - le_combine (rev (skipn (length key - 8) key)).

(** One record of the entries region. *)
Definition encodeEntry (kv : KV) : list byte :=
  le_split 4 (uint32 (len (Key kv))) ++ Key kv ++
  le_split 4 (uint32 (len (Value kv))) ++ Value kv.

Definition entriesRegion (es : list KV) : list byte :=
  flat_map encodeEntry es.

(** The index entries collected for [es] when the first record starts at
    [base]. *)
Fixpoint indexOf (base : Z) (es : list KV) : list (list byte * Z) :=
  match es with
  | [] => []
  | kv :: es' => (Key kv, uint32 base) :: indexOf (base + len (encodeEntry kv)) es'
  end.

Definition maxLen (es : list KV) : Z :=
  fold_right (fun kv m => Z.max (len (Key kv)) m) 0 es.

(** A key as the index holds it: zero bytes up to [m]. *)
Definition padKey (m : Z) (key : list byte) : list byte :=
  key ++ repeat Byte.x00 (Z.to_nat (m - len key)).

Definition indexRecord (m : Z) (e : list byte * Z) : list byte :=
  padKey m (fst e) ++ le_split 4 (snd e).

Definition indexRegion (m : Z) (entries : list (list byte * Z)) : list byte :=
  flat_map (indexRecord m) entries.

(** The entries pass both checks of the loop body. *)
Fixpoint validFrom (prevKey : option (list byte)) (es : list KV) : bool :=
  match es with
  | [] => true
  | kv :: es' =>
      negb (outOfOrder prevKey (Key kv)) && (8 <=? len (Key kv)) &&
      validFrom (Some (Key kv)) es'
  end.

(** The loop state after the entries [es]. *)
Definition run (st : buildState) (es : list KV) : buildState :=
  fold_left (fun st kv => advance st kv (keyVersion (Key kv))) es st.

Definition countDeletes (es : list KV) : Z :=
  Z.of_nat (length (filter (fun kv => len (Value kv) =? 0) es)).

(** The size of the finished data buffer: header, entries, index. *)
Definition encodedSize (es : list KV) : Z :=
  5 + len (entriesRegion es) + Z.of_nat (length es) * (maxLen es + 4).

(** What a reader finds at an offset of the entries region: the key behind
    its 4-byte length. *)
Definition keyAt (d : list byte) (off : Z) : option (list byte) :=
  match encoding.ReadUint32FromBufferLE d off with
  | Some (l, off') => slice d off' (off' + l)
  | None => None
  end.

(** The data buffer of the table built from [es]: format byte, pointer,
    entries region, index region. *)
Definition layout (fmt : byte) (es : list KV) : list byte :=
  fmt :: le_split 4 (encodedSize es) ++ entriesRegion es ++
  indexRegion (maxLen es) (indexOf 5 es).

Definition tableOf (fmt : byte) (es : list KV) (now : Z) : SSTable :=
  {| format := fmt;
     maxKeyLength := maxLen es;
     numEntries := Z.of_nat (length es);
     numDeletes := countDeletes es;
     indexOffset := 5 + len (entriesRegion es);
     creationTime := uint64 now;
     data := layout fmt es |}.

Definition builtOf (fmt : byte) (es : list KV) (now : Z) : built :=
  let st := run (initBuild fmt) es in
  {| table := tableOf fmt es now;
     smallestKey := b_smallestKey st;
     largestKey := b_largestKey st;
     minVersion := b_minVersion st;
     maxVersion := b_maxVersion st |}.

(** The 24 bytes [Serialize] puts after the data buffer. *)
Definition footer (s : SSTable) : list byte :=
  le_split 4 (maxKeyLength s) ++ le_split 4 (numEntries s) ++
  le_split 4 (numDeletes s) ++ le_split 4 (indexOffset s) ++
  le_split 8 (creationTime s).

(** ** Sample entries

    Keys [a], [b], [c] with versions 5, 3 and 9, values [v1], empty, [v3]. *)

Definition versionSuffix (v : Z) : list byte :=
  rev (le_split 8 (MaxUint64 - v)).

Definition sampleEntries : list KV :=
  [ mkKV (Byte.x61 :: versionSuffix 5) [Byte.x76; Byte.x31];
    mkKV (Byte.x62 :: versionSuffix 3) [];
    mkKV (Byte.x63 :: versionSuffix 9) [Byte.x76; Byte.x33] ].

Definition sampleBuilt : built := builtOf Byte.x01 sampleEntries 1700000000000.

(** One entry whose value alone has 2^32 bytes. *)
Definition oversizedEntries : list KV :=
  [ mkKV (Byte.x61 :: versionSuffix 5) (repeat Byte.x00 (Z.to_nat 4294967296)) ].

(** [k] is [s] followed by one or more zero bytes. *)
Definition zeroExt (s k : list byte) : Prop :=
  exists n : nat, (0 < n)%nat /\ k = s ++ repeat Byte.x00 n.

(** Two entries, the second key being the first followed by a zero byte. *)
Definition prefixEntries : list KV :=
  [ mkKV (Byte.x61 :: versionSuffix 5) [Byte.x76];
    mkKV (Byte.x61 :: versionSuffix 5 ++ [Byte.x00]) [Byte.x76] ].

(** Two entries, the larger key being the shorter one. *)
Definition shortLastEntries : list KV :=
  [ mkKV (Byte.x61 :: versionSuffix 5 ++ [Byte.x01]) [Byte.x76];
    mkKV (Byte.x62 :: versionSuffix 3) [Byte.x76] ].

(** The error an iterator ends in, if it ends in one. *)
Fixpoint iterError (it : Iterator) : option error :=
  match it with
  | Exhausted => None
  | ValidFails e => Some e
  | Item _ rest => iterError rest
  | ItemNextFails _ e => Some e
  end.

(** What a reader finds behind the key at an offset of the entries region:
    the value behind its own 4-byte length. *)
Definition valueAt (d : list byte) (off : Z) : option (list byte) :=
  match encoding.ReadUint32FromBufferLE d off with
  | Some (lk, off') =>
      match encoding.ReadUint32FromBufferLE d (off' + lk) with
      | Some (lv, off'') => slice d off'' (off'' + lv)
      | None => None
      end
  | None => None
  end.

(** The bytes the entries take in the entries region. *)
Definition entriesSize (es : list KV) : Z :=
  fold_right (fun kv n => 8 + len (Key kv) + len (Value kv) + n) 0 es.

(** A buffer that no build produced: a header whose pointer is 5, then 24
    bytes [0x2a]. *)
Definition rawBuffer : list byte :=
  [Byte.x07; Byte.x05; Byte.x00; Byte.x00; Byte.x00] ++ repeat Byte.x2a 24.

(** * Column types ([types] package)

    Go strings are byte strings, here [string]; an [int] is a [Z]. *)

Module types.

Local Open Scope string_scope.
Local Open Scope Z_scope.

(** What a call gives: a value, a returned [error], or a panic with its
    message. *)
Inductive result (A : Type) : Type :=
| Ok (a : A)
| Err (e : error)
| Panic (msg : string).
Arguments Ok {A} a.
Arguments Err {A} e.
Arguments Panic {A} msg.

Definition ColumnTypeIDInt : Z := 1.
Definition ColumnTypeIDFloat : Z := 2.
Definition ColumnTypeIDBool : Z := 3.
Definition ColumnTypeIDDecimal : Z := 4.
Definition ColumnTypeIDString : Z := 5.
Definition ColumnTypeIDBytes : Z := 6.
Definition ColumnTypeIDTimestamp : Z := 7.

(** The two implementations of the interface [ColumnType]. *)
Inductive ColumnType : Type :=
| nonParameterizedType (id : Z)
| DecimalType (Precision Scale : Z).

Definition ColumnTypeInt := nonParameterizedType ColumnTypeIDInt.
Definition ColumnTypeFloat := nonParameterizedType ColumnTypeIDFloat.
Definition ColumnTypeBool := nonParameterizedType ColumnTypeIDBool.
Definition ColumnTypeString := nonParameterizedType ColumnTypeIDString.
Definition ColumnTypeBytes := nonParameterizedType ColumnTypeIDBytes.
Definition ColumnTypeTimestamp := nonParameterizedType ColumnTypeIDTimestamp.

(** The method [ID()]. *)
Definition ID (ct : ColumnType) : Z :=
  match ct with
  | nonParameterizedType id => id
  | DecimalType _ _ => ColumnTypeIDDecimal
  end.

(** [%d] of [fmt.Sprintf]: the decimal digits, with a minus sign below 0. *)
Definition formatInt (z : Z) : string :=
  NilZero.string_of_int (Z.to_int z).

(** The method [String()]. *)
Definition String_ (ct : ColumnType) : result string :=
  match ct with
  | nonParameterizedType id =>
      if id =? ColumnTypeIDInt then Ok "int"
      else if id =? ColumnTypeIDFloat then Ok "float"
      else if id =? ColumnTypeIDBool then Ok "bool"
      else if id =? ColumnTypeIDString then Ok "string"
      else if id =? ColumnTypeIDBytes then Ok "bytes"
      else if id =? ColumnTypeIDTimestamp then Ok "timestamp"
      else Panic "unexpected type"
  | DecimalType p sc =>
      Ok ("decimal(" ++ formatInt p ++ "," ++ formatInt sc ++ ")")
  end.

(** [len(s)]. *)
Definition slen (s : string) : Z := Z.of_nat (String.length s).

(** [s[lo:hi]], used where the code has checked the bounds. *)
Definition strSlice (s : string) (lo hi : Z) : string :=
  substring (Z.to_nat lo) (Z.to_nat (hi - lo)) s.

(** [strings.IndexRune(s, c)] for an ASCII [c]: the index of its first
    occurrence, or -1. *)
Fixpoint IndexRune (s : string) (c : ascii) : Z :=
  match s with
  | EmptyString => -1
  | String a r =>
      if Ascii.eqb a c then 0
      else let i := IndexRune r c in if i =? -1 then -1 else i + 1
  end.

Definition inCutset (c : ascii) : bool :=
  Ascii.eqb c " " || Ascii.eqb c (ascii_of_nat 9).

Fixpoint trimLeft (s : string) : string :=
  match s with
  | EmptyString => EmptyString
  | String c r => if inCutset c then trimLeft r else s
  end.

Fixpoint trimRight (s : string) : string :=
  match s with
  | EmptyString => EmptyString
  | String c r =>
      match trimRight r with
      | EmptyString => if inCutset c then EmptyString else String c EmptyString
      | r' => String c r'
      end
  end.

(** [strings.Trim(s, " \t")]. *)
Definition Trim (s : string) : string := trimRight (trimLeft s).

Definition digitVal (c : ascii) : option Z :=
  let n := Z.of_nat (nat_of_ascii c) in
  if (48 <=? n) && (n <=? 57) then Some (n - 48) else None.

Fixpoint parseDigits (acc : Z) (s : string) : option Z :=
  match s with
  | EmptyString => Some acc
  | String c r =>
      match digitVal c with
      | Some d => parseDigits (10 * acc + d) r
      | None => None
      end
  end.

(** [strconv.Atoi]: an optional sign, then one or more decimal digits, the
    value in the range of a 64-bit [int]; [None] is a non-nil error. *)
Definition Atoi (s : string) : option Z :=
  match s with
  | EmptyString => None
  | String c r =>
      let neg := Ascii.eqb c "-" in
      let digits := if Ascii.eqb c "-" || Ascii.eqb c "+" then r else s in
      match digits with
      | EmptyString => None
      | _ =>
          match parseDigits 0 digits with
          | None => None
          | Some v =>
              let v := if neg then - v else v in
              if (- 9223372036854775808 <=? v) && (v <=? 9223372036854775807)
              then Some v else None
          end
      end
  end.

(** [errors.Errorf] with one [%s]. *)
Definition Errorf (prefix arg suffix : string) : error :=
  errors_New (prefix ++ arg ++ suffix).

Definition parseDecimalType (sargtype : string) : result ColumnType :=
  let invalid :=
    Err (Errorf "invalid decimal argument type: " sargtype "") in
  if 8 <? slen sargtype then
    let rem := strSlice sargtype 8 (slen sargtype - 1) in
    if 3 <=? slen rem then
      let comIndex := IndexRune rem "," in
      if negb (comIndex =? -1) then
        let sPrec := Trim (strSlice rem 0 comIndex) in
        let sScale := Trim (strSlice rem (comIndex + 1) (slen rem)) in
        match Atoi sPrec with
        | None =>
            Err (Errorf "invalid decimal precision, not a valid integer "
                        sPrec "")
        | Some prec =>
            if (prec <? 1) || (38 <? prec) then
              Err (Errorf "invalid decimal precision, must be > 1 and <= 38 "
                          sargtype "")
            else
              match Atoi sScale with
              | None =>
                  Err (Errorf "invalid decimal scale, not a valid integer "
                              sScale "")
              | Some scale =>
                  if (scale <? 0) || (38 <? scale) then
                    Err (Errorf
                           "invalid decimal scale, must be >= 0 and <= 38 "
                           sargtype "")
                  else if prec <? scale then
                    Err (Errorf "invalid decimal scale cannot be > precision "
                                sargtype "")
                  else Ok (DecimalType prec scale)
              end
        end
      else invalid
    else invalid
  else invalid.

Definition StringToColumnType (sColumnType : string) : result ColumnType :=
  if String.eqb sColumnType "int" then Ok ColumnTypeInt
  else if String.eqb sColumnType "float" then Ok ColumnTypeFloat
  else if String.eqb sColumnType "bool" then Ok ColumnTypeBool
  else if String.eqb sColumnType "string" then Ok ColumnTypeString
  else if String.eqb sColumnType "bytes" then Ok ColumnTypeBytes
  else if String.eqb sColumnType "timestamp" then Ok ColumnTypeTimestamp
  else if prefix "decimal(" sColumnType then parseDecimalType sColumnType
  else Err (Errorf "invalid type '" sColumnType "'").

(** The loop of [ColumnTypesToString]: [i] is the index of the head of
    [cts], [n] is [len(columnTypes)], [sb] what the builder holds. *)
Fixpoint writeColumnTypes (i n : Z) (cts : list ColumnType) (sb : string)
  : result string :=
  match cts with
  | [] => Ok sb
  | ct :: rest =>
      match String_ ct with
      | Ok str =>
          let sb := sb ++ str in
          let sb := if negb (i =? n - 1) then sb ++ "," else sb in
          writeColumnTypes (i + 1) n rest sb
      | Err e => Err e
      | Panic msg => Panic msg
      end
  end.

Definition ColumnTypesToString (columnTypes : list ColumnType)
  : result string :=
  writeColumnTypes 0 (Z.of_nat (List.length columnTypes)) columnTypes "".

(** The type assertion [ct.( *DecimalType)]. *)
Definition asDecimal (ct : ColumnType) : option (Z * Z) :=
  match ct with
  | DecimalType p sc => Some (p, sc)
  | nonParameterizedType _ => None
  end.

Definition ColumnTypesEqual (ct1 ct2 : ColumnType) : bool :=
  if negb (ID ct1 =? ID ct2) then false
  else
    match asDecimal ct1, asDecimal ct2 with
    | None, None => true
    | Some (p1, s1), Some (p2, s2) => (s1 =? s2) && (p1 =? p2)
    | _, _ => false
    end.

(** A decimal type as [parseDecimalType] accepts it. *)
Definition validType (ct : ColumnType) : Prop :=
  match ct with
  | nonParameterizedType id =>
      id <> ColumnTypeIDDecimal /\ 1 <= id <= 7
  | DecimalType p sc => 1 <= p <= 38 /\ 0 <= sc <= p
  end.

End types.

(** * Properties *)

(** ** Lengths, slices and the integer helpers *)

Lemma len_app (a b : list byte) : len (a ++ b) = len a + len b.
Proof. unfold len. rewrite length_app. lia. Qed.

Lemma len_nonneg (a : list byte) : 0 <= len a.
Proof. unfold len. lia. Qed.

Lemma len_cons (x : byte) (a : list byte) : len (x :: a) = 1 + len a.
Proof. unfold len. simpl length. lia. Qed.

Lemma len_le_split (n : nat) (v : Z) : len (le_split n v) = Z.of_nat n.
Proof. unfold len. now rewrite length_le_split. Qed.

Lemma len_repeat (x : byte) (n : nat) : len (repeat x n) = Z.of_nat n.
Proof. unfold len. now rewrite repeat_length. Qed.

Lemma len_nil : len [] = 0.
Proof. reflexivity. Qed.

Ltac len_simpl :=
  repeat progress
    (rewrite ?len_app, ?len_cons, ?len_le_split, ?len_repeat, ?len_nil in * ).

Lemma slice_middle (pre mid post : list byte) (lo hi : Z) :
  lo = len pre -> hi = lo + len mid ->
  slice (pre ++ mid ++ post) lo hi = Some mid.
Proof.
  intros -> ->. unfold slice.
  pose proof (len_nonneg pre). pose proof (len_nonneg mid).
  pose proof (len_nonneg post).
  replace ((0 <=? len pre) && (len pre <=? len pre + len mid) &&
           (len pre + len mid <=? len (pre ++ mid ++ post))) with true.
  - f_equal. unfold len.
    replace (Z.of_nat (length pre) + Z.of_nat (length mid) -
             Z.of_nat (length pre)) with (Z.of_nat (length mid)) by lia.
    rewrite !Nat2Z.id, skipn_app, skipn_all, Nat.sub_diag. simpl.
    now rewrite firstn_app, firstn_all, Nat.sub_diag, firstn_O, app_nil_r.
  - symmetry. rewrite !andb_true_iff, !Z.leb_le. len_simpl. lia.
Qed.

Lemma slice_prefix (pre post : list byte) (hi : Z) :
  hi = len pre -> slice (pre ++ post) 0 hi = Some pre.
Proof.
  intros ->. apply (slice_middle [] pre post); reflexivity.
Qed.

Lemma slice_None (b : list byte) (lo hi : Z) :
  len b < hi -> slice b lo hi = None.
Proof.
  intros H. unfold slice.
  replace (hi <=? len b) with false by (symmetry; apply Z.leb_gt; lia).
  now rewrite andb_false_r.
Qed.

Lemma le_combine_split32 (v : Z) : le_combine (le_split 4 v) = v mod 2 ^ 32.
Proof. now rewrite le_combine_split. Qed.

Lemma le_combine_split64 (v : Z) : le_combine (le_split 8 v) = v mod 2 ^ 64.
Proof. now rewrite le_combine_split. Qed.

Lemma read32_middle (pre post : list byte) (v off : Z) :
  off = len pre ->
  encoding.ReadUint32FromBufferLE (pre ++ le_split 4 v ++ post) off
  = Some (v mod 2 ^ 32, off + 4).
Proof.
  intros ->. unfold encoding.ReadUint32FromBufferLE.
  rewrite (slice_middle pre (le_split 4 v) post) by (len_simpl; lia).
  now rewrite le_combine_split32.
Qed.

Lemma read64_middle (pre post : list byte) (v off : Z) :
  off = len pre ->
  encoding.ReadUint64FromBufferLE (pre ++ le_split 8 v ++ post) off
  = Some (v mod 2 ^ 64, off + 8).
Proof.
  intros ->. unfold encoding.ReadUint64FromBufferLE.
  rewrite (slice_middle pre (le_split 8 v) post) by (len_simpl; lia).
  now rewrite le_combine_split64.
Qed.

(** The read helpers as modelled decode little-endian, and every helper that
    does agrees with them wherever they yield a value. *)
Lemma ReadUint32_decodesLE : decodesLE 4 encoding.ReadUint32FromBufferLE.
Proof.
  intros buff offset bs H. unfold encoding.ReadUint32FromBufferLE.
  now rewrite H.
Qed.

Lemma ReadUint64_decodesLE : decodesLE 8 encoding.ReadUint64FromBufferLE.
Proof.
  intros buff offset bs H. unfold encoding.ReadUint64FromBufferLE.
  now rewrite H.
Qed.

Lemma decodesLE_ReadUint32 (read : reader) (buff : list byte) (offset : Z)
      (res : Z * Z) :
  decodesLE 4 read ->
  encoding.ReadUint32FromBufferLE buff offset = Some res ->
  read buff offset = Some res.
Proof.
  intros D. unfold encoding.ReadUint32FromBufferLE.
  destruct (slice buff offset (offset + 4)) as [bs|] eqn:E; [|discriminate].
  intros [= <-]. now apply D.
Qed.

Lemma uint32_small (z : Z) : 0 <= z <= MaxUint32 -> uint32 z = z.
Proof. unfold uint32, MaxUint32. intros H. apply Z.mod_small. lia. Qed.

(** ** The loop body and the first loop *)

Lemma version_slice (key : list byte) :
  8 <= len key ->
  slice key (len key - 8) (len key) = Some (skipn (length key - 8) key).
Proof.
  intros H.
  rewrite <- (firstn_skipn (length key - 8) key) at 1.
  rewrite <- (app_nil_r (skipn _ _)) at 1.
  unfold len in *.
  apply slice_middle; unfold len;
    rewrite ?length_firstn, ?length_skipn; lia.
Qed.

Lemma buildStep_cases (st : buildState) (kv : KV) :
  buildStep st kv =
  if outOfOrder (b_prevKey st) (Key kv) then Panicked KeysNotInOrder
  else if len (Key kv) <? 8 then Panicked SliceBounds
  else Returned (advance st kv (keyVersion (Key kv))).
Proof.
  unfold buildStep. destruct (outOfOrder _ _); [reflexivity|].
  destruct (Z.ltb_spec (len (Key kv)) 8) as [Hlt|Hge].
  - unfold slice.
    replace (0 <=? len (Key kv) - 8) with false
      by (symmetry; apply Z.leb_gt; lia).
    reflexivity.
  - rewrite version_slice by lia. unfold BigEndian_Uint64.
    assert (Hl : length (skipn (length (Key kv) - 8) (Key kv)) = 8%nat)
      by (unfold len in Hge; rewrite length_skipn; lia).
    replace (len (skipn (length (Key kv) - 8) (Key kv)) <? 8) with false
      by (symmetry; apply Z.ltb_ge; unfold len; lia).
    now rewrite firstn_all2 by lia.
Qed.

Lemma run_cons (st : buildState) (kv : KV) (es : list KV) :
  run st (kv :: es) = run (advance st kv (keyVersion (Key kv))) es.
Proof. reflexivity. Qed.

(** The first loop hands back a state exactly when the iterator never fails
    and every entry passes the two checks; the state is then [run]. *)
Lemma buildLoop_Returned (it : Iterator) (st st' : buildState) :
  buildLoop it st = Returned st' <->
  it = iter_of (items it) /\
  validFrom (b_prevKey st) (items it) = true /\
  st' = run st (items it).
Proof.
  revert st. induction it as [|e|kv rest IH|kv e]; intros st;
    cbn [buildLoop items iter_of validFrom].
  - split; [intros [= <-]; auto | intros (_ & _ & ->); reflexivity].
  - split; [discriminate | intros ([=] & _)].
  - rewrite run_cons, buildStep_cases.
    destruct (outOfOrder _ _); cbn [obind negb andb];
      [split; [discriminate | intros (_ & [=] & _)]|].
    destruct (Z.ltb_spec (len (Key kv)) 8) as [Hlt|Hge]; cbn [obind].
    + replace (8 <=? len (Key kv)) with false by (symmetry; apply Z.leb_gt; lia).
      split; [discriminate | intros (_ & [=] & _)].
    + replace (8 <=? len (Key kv)) with true by (symmetry; apply Z.leb_le; lia).
      rewrite IH. cbn [andb b_prevKey advance].
      split; intros (H1 & H2 & H3); repeat split; auto; congruence.
  - split; [|intros ([=] & _)].
    destruct (buildStep st kv); cbn [obind]; discriminate.
Qed.

Lemma advance_buff (st : buildState) (kv : KV) (v : Z) :
  b_buff (advance st kv v) = b_buff st ++ encodeEntry kv.
Proof.
  unfold advance, appendBytesWithLengthPrefix, encoding.AppendUint32ToBufferLE,
    encodeEntry. cbn [b_buff]. now rewrite <- !app_assoc.
Qed.

Lemma run_buff (st : buildState) (es : list KV) :
  b_buff (run st es) = b_buff st ++ entriesRegion es.
Proof.
  revert st. induction es as [|kv es IH]; intros st.
  - cbn. now rewrite app_nil_r.
  - rewrite run_cons, IH, advance_buff. cbn [entriesRegion flat_map].
    now rewrite <- app_assoc.
Qed.

Lemma run_indexEntries (st : buildState) (es : list KV) :
  b_indexEntries (run st es) = b_indexEntries st ++ indexOf (len (b_buff st)) es.
Proof.
  revert st. induction es as [|kv es IH]; intros st.
  - cbn. now rewrite app_nil_r.
  - rewrite run_cons, IH, advance_buff, len_app. cbn [indexOf advance b_indexEntries].
    now rewrite <- app_assoc.
Qed.

Lemma maxLen_nonneg (es : list KV) : 0 <= maxLen es.
Proof. induction es as [|kv es IH]; cbn; [lia|]. fold (maxLen es). lia. Qed.

Lemma run_maxKeyLength (st : buildState) (es : list KV) :
  0 <= b_maxKeyLength st ->
  b_maxKeyLength (run st es) = Z.max (b_maxKeyLength st) (maxLen es).
Proof.
  revert st. induction es as [|kv es IH]; intros st H0.
  - cbn. lia.
  - rewrite run_cons, IH; cbn [advance b_maxKeyLength maxLen fold_right];
      fold (maxLen es);
      destruct (Z.ltb_spec (b_maxKeyLength st) (len (Key kv))); lia.
Qed.

Lemma run_numEntries (st : buildState) (es : list KV) :
  b_numEntries (run st es) = b_numEntries st + Z.of_nat (length es).
Proof.
  revert st. induction es as [|kv es IH]; intros st.
  - cbn. lia.
  - rewrite run_cons, IH. cbn [advance b_numEntries length]. lia.
Qed.

Lemma countDeletes_cons (kv : KV) (es : list KV) :
  countDeletes (kv :: es) =
  (if len (Value kv) =? 0 then 1 else 0) + countDeletes es.
Proof.
  unfold countDeletes. cbn [filter].
  destruct (len (Value kv) =? 0); cbn [length]; lia.
Qed.

Lemma run_numDeletes (st : buildState) (es : list KV) :
  b_numDeletes (run st es) = b_numDeletes st + countDeletes es.
Proof.
  revert st. induction es as [|kv es IH]; intros st.
  - cbn. lia.
  - rewrite run_cons, IH, countDeletes_cons. cbn [advance b_numDeletes].
    destruct (len (Value kv) =? 0); lia.
Qed.

Lemma countDeletes_bounds (es : list KV) :
  0 <= countDeletes es <= Z.of_nat (length es).
Proof.
  unfold countDeletes. pose proof (filter_length_le (fun kv => len (Value kv) =? 0) es).
  lia.
Qed.

(** ** The index region and the pointer *)

Lemma appendIndexEntry_eq (m : Z) (buff : list byte) (e : list byte * Z) :
  appendIndexEntry m buff e = buff ++ indexRecord m e.
Proof.
  unfold appendIndexEntry, indexRecord, padKey, encoding.AppendUint32ToBufferLE.
  destruct (Z.ltb_spec 0 (m - len (fst e))) as [Hp|Hp].
  - now rewrite <- !app_assoc.
  - replace (Z.to_nat (m - len (fst e))) with 0%nat by lia.
    cbn [repeat]. now rewrite app_nil_r, <- app_assoc.
Qed.

Lemma appendIndex_eq (m : Z) (buff : list byte) (entries : list (list byte * Z)) :
  appendIndex m buff entries = buff ++ indexRegion m entries.
Proof.
  unfold appendIndex. revert buff.
  induction entries as [|e entries IH]; intros buff; cbn [fold_left].
  - cbn. now rewrite app_nil_r.
  - rewrite IH, appendIndexEntry_eq. cbn [indexRegion flat_map].
    now rewrite <- app_assoc.
Qed.

Lemma store_pointer (f b1 b2 b3 b4 : byte) (rest : list byte) (m : Z) :
  store (store (store (store (f :: b1 :: b2 :: b3 :: b4 :: rest)
                         1 (byte.of_Z m))
                  2 (byte.of_Z (Z.shiftr m 8)))
           3 (byte.of_Z (Z.shiftr m 16)))
    4 (byte.of_Z (Z.shiftr m 24))
  = f :: le_split 4 m ++ rest.
Proof.
  cbn [store]. unfold le_split. rewrite !Z.shiftr_shiftr by lia.
  reflexivity.
Qed.

Lemma len_padKey (m : Z) (key : list byte) :
  len key <= m -> len (padKey m key) = m.
Proof.
  intros H. unfold padKey. pose proof (len_nonneg key). len_simpl. lia.
Qed.

Lemma maxLen_In (es : list KV) (kv : KV) :
  In kv es -> len (Key kv) <= maxLen es.
Proof.
  induction es as [|x es IH]; [intros []|].
  cbn [maxLen fold_right]. fold (maxLen es).
  intros [->|H]; [lia|]. specialize (IH H). lia.
Qed.

Lemma indexOf_keys (base : Z) (es : list KV) :
  map fst (indexOf base es) = map Key es.
Proof.
  revert base. induction es as [|kv es IH]; intros base; cbn; [reflexivity|].
  now rewrite IH.
Qed.

Lemma length_indexOf (base : Z) (es : list KV) :
  length (indexOf base es) = length es.
Proof. now rewrite <- (length_map fst), indexOf_keys, length_map. Qed.

Lemma len_indexRegion (m : Z) (entries : list (list byte * Z)) :
  (forall e, In e entries -> len (fst e) <= m) ->
  len (indexRegion m entries) = Z.of_nat (length entries) * (m + 4).
Proof.
  induction entries as [|e entries IH]; intros H; [reflexivity|].
  cbn [indexRegion flat_map length]. fold (indexRegion m entries).
  rewrite len_app, IH by (intros; apply H; now right).
  unfold indexRecord. rewrite len_app, len_padKey, len_le_split
    by (apply H; now left). lia.
Qed.

Lemma indexOf_In_key (base : Z) (es : list KV) (e : list byte * Z) :
  In e (indexOf base es) -> exists kv, In kv es /\ fst e = Key kv.
Proof.
  intros H. apply (in_map fst) in H. rewrite indexOf_keys in H.
  apply in_map_iff in H. destruct H as (kv & H1 & H2). eauto.
Qed.

Lemma len_indexRegion_of (base : Z) (es : list KV) :
  len (indexRegion (maxLen es) (indexOf base es))
  = Z.of_nat (length es) * (maxLen es + 4).
Proof.
  rewrite len_indexRegion, length_indexOf; [reflexivity|].
  intros e H. apply indexOf_In_key in H. destruct H as (kv & H1 & ->).
  now apply maxLen_In.
Qed.

Lemma len_layout (fmt : byte) (es : list KV) :
  len (layout fmt es) = encodedSize es.
Proof.
  unfold layout, encodedSize. len_simpl. rewrite len_indexRegion_of. lia.
Qed.

(** ** What [BuildSSTable] returns *)

Lemma len_encodeEntry (kv : KV) :
  len (encodeEntry kv) = 8 + len (Key kv) + len (Value kv).
Proof. unfold encodeEntry. len_simpl. lia. Qed.

Lemma entriesRegion_cons (kv : KV) (es : list KV) :
  entriesRegion (kv :: es) = encodeEntry kv ++ entriesRegion es.
Proof. reflexivity. Qed.

Lemma entriesRegion_bounds (es : list KV) :
  Z.of_nat (length es) <= len (entriesRegion es) /\
  maxLen es <= len (entriesRegion es).
Proof.
  induction es as [|kv es [IH1 IH2]]; [cbn; lia|].
  rewrite entriesRegion_cons, len_app, len_encodeEntry.
  cbn [length maxLen fold_right]. fold (maxLen es).
  pose proof (len_nonneg (Key kv)). pose proof (len_nonneg (Value kv)).
  pose proof (len_nonneg (entriesRegion es)). lia.
Qed.

Lemma items_iter_of (es : list KV) : items (iter_of es) = es.
Proof. induction es as [|kv es IH]; cbn; [reflexivity|now rewrite IH]. Qed.

Lemma finishBuild_run (fmt : byte) (now : Z) (es : list KV) :
  finishBuild fmt now (run (initBuild fmt) es) =
  if MaxUint32 <? encodedSize es
  then Failed (errors_New "SSTable too big")
  else Returned (builtOf fmt es now).
Proof.
  unfold finishBuild.
  rewrite run_buff, run_indexEntries, run_maxKeyLength, run_numEntries,
    run_numDeletes, appendIndex_eq by (cbn; lia).
  cbn [initBuild b_buff b_indexEntries b_maxKeyLength b_numEntries
       b_numDeletes app].
  pose proof (maxLen_nonneg es) as Hm.
  replace (Z.max 0 (maxLen es)) with (maxLen es) by lia.
  change (len [fmt; Byte.x00; Byte.x00; Byte.x00; Byte.x00]) with 5.
  cbn [indexOf].
  match goal with |- context [MaxUint32 <? ?l] =>
    replace l with (encodedSize es)
  end.
  2:{ symmetry. rewrite <- (len_layout fmt es). unfold layout. len_simpl.
      cbn [app]. len_simpl. lia. }
  destruct (Z.ltb_spec MaxUint32 (encodedSize es)) as [Hbig|Hfit];
    [reflexivity|].
  rewrite store_pointer.
  unfold builtOf, tableOf, layout. f_equal. f_equal.
  pose proof (entriesRegion_bounds es) as [Hn Hl].
  pose proof (countDeletes_bounds es) as Hd.
  pose proof (len_nonneg (entriesRegion es)) as He.
  assert (5 + len (entriesRegion es) <= encodedSize es).
  { unfold encodedSize. nia. }
  len_simpl. rewrite !Z.add_0_l.
  rewrite (uint32_small (maxLen es)), (uint32_small (Z.of_nat (length es))),
    (uint32_small (countDeletes es)) by lia.
  replace (1 + (1 + (1 + (1 + (1 + len (entriesRegion es))))))
    with (5 + len (entriesRegion es)) by lia.
  now rewrite uint32_small by lia.
Qed.

Lemma BuildSSTable_valid (fmt : byte) (h1 h2 : N) (es : list KV) (now : Z) :
  validFrom None es = true ->
  BuildSSTable fmt h1 h2 (iter_of es) now =
  if MaxUint32 <? encodedSize es
  then Failed (errors_New "SSTable too big")
  else Returned (builtOf fmt es now).
Proof.
  intros Hv. unfold BuildSSTable.
  assert (H : buildLoop (iter_of es) (initBuild fmt)
              = Returned (run (initBuild fmt) es)).
  { apply buildLoop_Returned. rewrite items_iter_of. auto. }
  rewrite H. cbn [obind]. apply finishBuild_run.
Qed.

(** A table comes back exactly for an iterator that never fails and hands
    out entries in strictly ascending key order, every key of 8 bytes or
    more, whose encoding fits 32 bits; it is then [builtOf]. *)
Lemma BuildSSTable_Returned (fmt : byte) (h1 h2 : N) (it : Iterator) (now : Z)
      (b : built) :
  BuildSSTable fmt h1 h2 it now = Returned b <->
  it = iter_of (items it) /\
  validFrom None (items it) = true /\
  encodedSize (items it) <= MaxUint32 /\
  b = builtOf fmt (items it) now.
Proof.
  split.
  - unfold BuildSSTable. destruct (buildLoop it (initBuild fmt)) as [st|e|p] eqn:E;
      cbn [obind]; try discriminate.
    apply buildLoop_Returned in E. destruct E as (Hit & Hv & ->).
    rewrite finishBuild_run.
    destruct (Z.ltb_spec MaxUint32 (encodedSize (items it))); [discriminate|].
    intros [= <-]. auto.
  - intros (Hit & Hv & Hsz & ->). rewrite Hit at 1.
    rewrite BuildSSTable_valid by assumption.
    destruct (Z.ltb_spec MaxUint32 (encodedSize (items it))); [lia|reflexivity].
Qed.

(** ** Serialize and Deserialize *)

Lemma Serialize_eq (s : SSTable) : Serialize s = data s ++ footer s.
Proof.
  unfold Serialize, footer, encoding.AppendUint32ToBufferLE,
    encoding.AppendUint64ToBufferLE. now rewrite <- !app_assoc.
Qed.

Lemma len_footer (s : SSTable) : len (footer s) = 24.
Proof. unfold footer. len_simpl. reflexivity. Qed.

Lemma slice_0 (b : list byte) (hi : Z) :
  0 <= hi <= len b -> slice b 0 hi = Some (firstn (Z.to_nat hi) b).
Proof.
  intros H. unfold slice.
  replace ((0 <=? 0) && (0 <=? hi) && (hi <=? len b)) with true
    by (symmetry; rewrite !andb_true_iff, !Z.leb_le; lia).
  now rewrite Z.sub_0_r.
Qed.

Lemma index_0 (x : byte) (b : list byte) : index (x :: b) 0 = Some x.
Proof.
  unfold index. rewrite len_cons. pose proof (len_nonneg b).
  replace (0 <? 1 + len b) with true by (symmetry; apply Z.ltb_lt; lia).
  reflexivity.
Qed.

(** [Deserialize] at offset 0 of a buffer that starts with a format byte and
    a pointer to four little-endian fields: up to the read of [creationTime],
    whatever the helper of the 8-byte read does. *)
Lemma DeserializeWith_prefix (read32 read64 : reader)
      (fmt : byte) (body rest : list byte)
      (a b c d : Z) (s : SSTable) (pre buff : list byte) :
  decodesLE 4 read32 ->
  pre = fmt :: le_split 4 (5 + len body) ++ body ->
  buff = pre ++ le_split 4 a ++ le_split 4 b ++ le_split 4 c ++
         le_split 4 d ++ rest ->
  5 + len body <= MaxUint32 ->
  let s4 := {| format := fmt;
               maxKeyLength := a mod 2 ^ 32;
               numEntries := b mod 2 ^ 32;
               numDeletes := c mod 2 ^ 32;
               indexOffset := d mod 2 ^ 32;
               creationTime := creationTime s;
               data := data s |} in
  DeserializeWith read32 read64 buff 0 s =
  match read64 buff (len pre + 16) with
  | None => (s4, Panicked SliceBounds)
  | Some (v, offset) =>
      match slice buff 0 (len buff - 24) with
      | None => (set_creationTime v s4, Panicked SliceBounds)
      | Some dat => (set_data dat (set_creationTime v s4), Returned offset)
      end
  end.
Proof.
  intros Hdec Epre Ebuff Hfit s4.
  pose proof (len_nonneg body) as Hb.
  assert (Hpre : len pre = 5 + len body) by (rewrite Epre; len_simpl; lia).
  assert (R0 : encoding.ReadUint32FromBufferLE buff (0 + 1)
               = Some (len pre, 0 + 1 + 4)).
  { rewrite Ebuff. rewrite Epre at 1. cbn [app]. rewrite <- app_assoc.
    match goal with |- context [body ++ ?t] =>
      pose proof (read32_middle [fmt] (body ++ t) (5 + len body) (0 + 1)
                    eq_refl) as R
    end.
    cbn [app] in R. rewrite R, Hpre. do 2 f_equal. apply uint32_small. lia. }
  assert (R1 : encoding.ReadUint32FromBufferLE buff (len pre)
               = Some (a mod 2 ^ 32, len pre + 4))
    by (rewrite Ebuff; now rewrite read32_middle).
  assert (R2 : encoding.ReadUint32FromBufferLE buff (len pre + 4)
               = Some (b mod 2 ^ 32, len pre + 4 + 4)).
  { rewrite Ebuff, (app_assoc pre).
    rewrite read32_middle by (len_simpl; lia). reflexivity. }
  assert (R3 : encoding.ReadUint32FromBufferLE buff (len pre + 4 + 4)
               = Some (c mod 2 ^ 32, len pre + 4 + 4 + 4)).
  { rewrite Ebuff, (app_assoc pre), (app_assoc (pre ++ _)).
    rewrite read32_middle by (len_simpl; lia). reflexivity. }
  assert (R4 : encoding.ReadUint32FromBufferLE buff (len pre + 4 + 4 + 4)
               = Some (d mod 2 ^ 32, len pre + 4 + 4 + 4 + 4)).
  { rewrite Ebuff, (app_assoc pre), (app_assoc (pre ++ _)),
      (app_assoc ((pre ++ _) ++ _)).
    rewrite read32_middle by (len_simpl; lia). reflexivity. }
  apply (decodesLE_ReadUint32 read32) in R0, R1, R2, R3, R4; try exact Hdec.
  unfold DeserializeWith, bind, check, assign, ret.
  replace (index buff 0) with (Some fmt)
    by (symmetry; rewrite Ebuff, Epre; apply index_0).
  rewrite R0, R1, R2, R3, R4.
  replace (len pre + 4 + 4 + 4 + 4) with (len pre + 16) by lia.
  destruct (read64 buff (len pre + 16)) as [[v o]|]; [|reflexivity].
  destruct (slice buff 0 (len buff - 24)); reflexivity.
Qed.

Lemma Deserialize_prefix (fmt : byte) (body rest : list byte)
      (a b c d : Z) (s : SSTable) (pre buff : list byte) :
  pre = fmt :: le_split 4 (5 + len body) ++ body ->
  buff = pre ++ le_split 4 a ++ le_split 4 b ++ le_split 4 c ++
         le_split 4 d ++ rest ->
  5 + len body <= MaxUint32 ->
  let s4 := {| format := fmt;
               maxKeyLength := a mod 2 ^ 32;
               numEntries := b mod 2 ^ 32;
               numDeletes := c mod 2 ^ 32;
               indexOffset := d mod 2 ^ 32;
               creationTime := creationTime s;
               data := data s |} in
  Deserialize buff 0 s =
  match encoding.ReadUint64FromBufferLE buff (len pre + 16) with
  | None => (s4, Panicked SliceBounds)
  | Some (v, offset) =>
      match slice buff 0 (len buff - 24) with
      | None => (set_creationTime v s4, Panicked SliceBounds)
      | Some dat => (set_data dat (set_creationTime v s4), Returned offset)
      end
  end.
Proof.
  intros Epre Ebuff Hfit. unfold Deserialize.
  exact (DeserializeWith_prefix _ _ fmt body rest a b c d s pre buff
           ReadUint32_decodesLE Epre Ebuff Hfit).
Qed.

(** The same with the 8 bytes of [creationTime] in place. *)
Lemma Deserialize_fields (fmt : byte) (body post : list byte)
      (a b c d e : Z) (s : SSTable) :
  let pre := fmt :: le_split 4 (5 + len body) ++ body in
  let buff := pre ++ le_split 4 a ++ le_split 4 b ++ le_split 4 c ++
              le_split 4 d ++ le_split 8 e ++ post in
  5 + len body <= MaxUint32 ->
  Deserialize buff 0 s =
  ({| format := fmt;
      maxKeyLength := a mod 2 ^ 32;
      numEntries := b mod 2 ^ 32;
      numDeletes := c mod 2 ^ 32;
      indexOffset := d mod 2 ^ 32;
      creationTime := e mod 2 ^ 64;
      data := firstn (Z.to_nat (len buff - 24)) buff |},
   Returned (len pre + 24)).
Proof.
  intros pre buff Hfit.
  pose proof (len_nonneg body) as Hb. pose proof (len_nonneg post) as Hp.
  assert (Hlen : len buff = len pre + 24 + len post)
    by (unfold buff; len_simpl; lia).
  pose proof (len_nonneg pre) as Hpre.
  rewrite (Deserialize_prefix fmt body (le_split 8 e ++ post) a b c d s pre buff
             eq_refl eq_refl Hfit).
  assert (R5 : encoding.ReadUint64FromBufferLE buff (len pre + 16)
               = Some (e mod 2 ^ 64, len pre + 16 + 8)).
  { unfold buff.
    rewrite (app_assoc pre), (app_assoc (pre ++ _)), (app_assoc ((pre ++ _) ++ _)),
      (app_assoc (((pre ++ _) ++ _) ++ _)).
    rewrite read64_middle by (len_simpl; lia). reflexivity. }
  rewrite R5, slice_0 by lia. cbn. do 3 f_equal. lia.
Qed.

Lemma encodedSize_body (es : list KV) :
  encodedSize es
  = 5 + len (entriesRegion es ++ indexRegion (maxLen es) (indexOf 5 es)).
Proof. unfold encodedSize. rewrite len_app, len_indexRegion_of. lia. Qed.

Lemma layout_body (fmt : byte) (es : list KV) :
  layout fmt es =
  fmt :: le_split 4 (5 + len (entriesRegion es ++
                               indexRegion (maxLen es) (indexOf 5 es)))
      ++ (entriesRegion es ++ indexRegion (maxLen es) (indexOf 5 es)).
Proof. unfold layout. now rewrite encodedSize_body. Qed.

Lemma tableOf_ranges (fmt : byte) (es : list KV) (now : Z) :
  encodedSize es <= MaxUint32 ->
  maxKeyLength (tableOf fmt es now) mod 2 ^ 32 = maxKeyLength (tableOf fmt es now) /\
  numEntries (tableOf fmt es now) mod 2 ^ 32 = numEntries (tableOf fmt es now) /\
  numDeletes (tableOf fmt es now) mod 2 ^ 32 = numDeletes (tableOf fmt es now) /\
  indexOffset (tableOf fmt es now) mod 2 ^ 32 = indexOffset (tableOf fmt es now) /\
  creationTime (tableOf fmt es now) mod 2 ^ 64 = creationTime (tableOf fmt es now).
Proof.
  intros Hfit. cbn [tableOf maxKeyLength numEntries numDeletes indexOffset
                    creationTime].
  pose proof (entriesRegion_bounds es) as [Hn Hl].
  pose proof (countDeletes_bounds es) as Hd.
  pose proof (maxLen_nonneg es) as Hm.
  pose proof (len_nonneg (entriesRegion es)) as He.
  assert (5 + len (entriesRegion es) <= encodedSize es)
    by (unfold encodedSize; nia).
  repeat split; try (apply uint32_small; lia).
  unfold uint64. apply Z.mod_mod. lia.
Qed.

(** [Deserialize] at offset 0 of a buffer that begins with a serialized
    table: the fields are the table's, the data is the buffer without its
    last 24 bytes, the result is the table's serialized length. *)
Lemma Deserialize_Serialize (fmt : byte) (es : list KV) (now : Z)
      (post : list byte) (s : SSTable) :
  encodedSize es <= MaxUint32 ->
  let t := tableOf fmt es now in
  let buff := Serialize t ++ post in
  Deserialize buff 0 s =
  ({| format := fmt;
      maxKeyLength := maxKeyLength t;
      numEntries := numEntries t;
      numDeletes := numDeletes t;
      indexOffset := indexOffset t;
      creationTime := creationTime t;
      data := firstn (Z.to_nat (len buff - 24)) buff |},
   Returned (len (Serialize t))).
Proof.
  intros Hfit t buff.
  destruct (tableOf_ranges fmt es now Hfit) as (E1 & E2 & E3 & E4 & E5).
  fold t in E1, E2, E3, E4, E5.
  assert (Hb : buff = (fmt :: le_split 4 (5 + len (entriesRegion es ++
                   indexRegion (maxLen es) (indexOf 5 es)))
                 ++ (entriesRegion es ++ indexRegion (maxLen es) (indexOf 5 es)))
               ++ le_split 4 (maxKeyLength t) ++ le_split 4 (numEntries t)
               ++ le_split 4 (numDeletes t) ++ le_split 4 (indexOffset t)
               ++ le_split 8 (creationTime t) ++ post).
  { unfold buff. rewrite Serialize_eq. unfold footer.
    replace (data t) with (layout fmt es) by reflexivity.
    rewrite layout_body. now rewrite <- !app_assoc. }
  rewrite Hb, Deserialize_fields by (rewrite <- encodedSize_body; exact Hfit).
  rewrite <- Hb, E1, E2, E3, E4, E5. do 2 f_equal.
  rewrite Serialize_eq, (len_app (data t)), len_footer. do 2 f_equal.
Qed.

(** ** Round trip *)

(** C2: for every strictly ascending entry sequence with well-formed keys
    whose encoding fits 32 bits, [BuildSSTable] returns a table, and
    [Deserialize] at offset 0 of its serialization leaves the receiver equal
    to that table: the same [numEntries], [numDeletes], [maxKeyLength],
    [indexOffset], [creationTime] (and [format]) and the same data bytes. *)
Theorem roundtrip (fmt : byte) (h1 h2 : N) (es : list KV) (now : Z)
        (s : SSTable) :
  validFrom None es = true ->
  encodedSize es <= MaxUint32 ->
  exists b s' next,
    BuildSSTable fmt h1 h2 (iter_of es) now = Returned b /\
    Deserialize (Serialize (table b)) 0 s = (s', Returned next) /\
    numEntries s' = numEntries (table b) /\
    numDeletes s' = numDeletes (table b) /\
    maxKeyLength s' = maxKeyLength (table b) /\
    indexOffset s' = indexOffset (table b) /\
    creationTime s' = creationTime (table b) /\
    data s' = data (table b) /\
    s' = table b.
Proof.
  intros Hv Hfit.
  exists (builtOf fmt es now), (tableOf fmt es now),
    (len (Serialize (tableOf fmt es now))).
  split.
  { rewrite BuildSSTable_valid by assumption.
    destruct (Z.ltb_spec MaxUint32 (encodedSize es)); [lia|reflexivity]. }
  cbn [builtOf table]. split; [|repeat split; reflexivity].
  pose proof (Deserialize_Serialize fmt es now [] s Hfit) as D.
  cbn zeta in D. rewrite app_nil_r in D. rewrite D. do 2 f_equal.
  rewrite Serialize_eq, len_app, len_footer.
  replace (len (data (tableOf fmt es now)) + 24 - 24)
    with (len (data (tableOf fmt es now))) by lia.
  unfold len. rewrite Nat2Z.id, firstn_app, firstn_all, Nat.sub_diag, firstn_O.
  now rewrite app_nil_r.
Qed.

Lemma roundtrip_witness :
  exists b s' next,
    BuildSSTable Byte.x01 0 0 (iter_of sampleEntries) 1700000000000 = Returned b /\
    Deserialize (Serialize (table b)) 0 emptySSTable = (s', Returned next) /\
    numEntries s' = numEntries (table b) /\
    numDeletes s' = numDeletes (table b) /\
    maxKeyLength s' = maxKeyLength (table b) /\
    indexOffset s' = indexOffset (table b) /\
    creationTime s' = creationTime (table b) /\
    data s' = data (table b) /\
    s' = table b.
Proof.
  apply (roundtrip Byte.x01 0 0 sampleEntries 1700000000000 emptySSTable).
  - vm_compute. reflexivity.
  - vm_compute. discriminate.
Defined.

Lemma BuildSSTable_inv (fmt : byte) (h1 h2 : N) (it : Iterator) (now : Z)
      (b : built) :
  BuildSSTable fmt h1 h2 it now = Returned b ->
  validFrom None (items it) = true /\
  encodedSize (items it) <= MaxUint32 /\
  b = builtOf fmt (items it) now.
Proof. intros H. apply BuildSSTable_Returned in H. tauto. Qed.

Lemma sampleBuilt_eq :
  BuildSSTable Byte.x01 0 0 (iter_of sampleEntries) 1700000000000
  = Returned sampleBuilt.
Proof. vm_compute. reflexivity. Qed.

(** ** Deserialize of a damaged buffer *)

(** [Deserialize] has no error result: whatever the read helpers do, it
    returns or panics. *)
Lemma DeserializeWith_never_Failed (read32 read64 : reader)
      (buff : list byte) (offset : Z) (s : SSTable) (e : error) :
  snd (DeserializeWith read32 read64 buff offset s) <> Failed e.
Proof.
  unfold DeserializeWith, bind, check, assign, ret.
  destruct (index buff offset); [|cbn; discriminate].
  repeat match goal with
         | |- context [match read32 ?b ?o with _ => _ end] =>
             destruct (read32 b o) as [[? ?]|]; [|cbn; discriminate]
         end.
  destruct (read64 buff _) as [[? ?]|]; [|cbn; discriminate].
  destruct (slice buff 0 _); cbn; discriminate.
Qed.

(** The serialization of a table without its last byte.  The format, the
    pointer and the four 32-bit fields of the footer are read inside the
    buffer; the 8-byte read of [creationTime] starts 7 bytes before the end
    of the buffer, and the rest of the call is what the helper makes of it. *)
Lemma DeserializeWith_cut (read32 read64 : reader) (fmt : byte)
      (es : list KV) (now : Z) (s t : SSTable) (buff : list byte) :
  decodesLE 4 read32 ->
  encodedSize es <= MaxUint32 ->
  t = tableOf fmt es now ->
  buff = removelast (Serialize t) ->
  len buff = len (data t) + 23 /\
  DeserializeWith read32 read64 buff 0 s =
  match read64 buff (len buff - 7) with
  | None =>
      ({| format := format t;
          maxKeyLength := maxKeyLength t;
          numEntries := numEntries t;
          numDeletes := numDeletes t;
          indexOffset := indexOffset t;
          creationTime := creationTime s;
          data := data s |},
       Panicked SliceBounds)
  | Some (v, next) =>
      ({| format := format t;
          maxKeyLength := maxKeyLength t;
          numEntries := numEntries t;
          numDeletes := numDeletes t;
          indexOffset := indexOffset t;
          creationTime := v;
          data := removelast (data t) |},
       Returned next)
  end.
Proof.
  intros Hdec Hfit Et Eb.
  destruct (tableOf_ranges fmt es now Hfit) as (E1 & E2 & E3 & E4 & _).
  rewrite <- Et in E1, E2, E3, E4.
  set (body := entriesRegion es ++ indexRegion (maxLen es) (indexOf 5 es)).
  set (pre := fmt :: le_split 4 (5 + len body) ++ body).
  set (rest := removelast (le_split 8 (creationTime t))).
  assert (Hd : data t = pre) by (rewrite Et; apply layout_body).
  assert (Hf : format t = fmt) by (rewrite Et; reflexivity).
  assert (Hb : buff = pre ++ le_split 4 (maxKeyLength t)
                 ++ le_split 4 (numEntries t) ++ le_split 4 (numDeletes t)
                 ++ le_split 4 (indexOffset t) ++ rest).
  { rewrite Eb, Serialize_eq. unfold footer. rewrite Hd.
    rewrite !removelast_app
      by (unfold le_split; try discriminate;
          intros C; apply (f_equal (@length _)) in C;
          rewrite !length_app in C; cbn in C; lia).
    reflexivity. }
  assert (Hr : len rest = 7).
  { unfold rest. rewrite removelast_firstn_len. unfold len.
    rewrite length_firstn, length_le_split. lia. }
  assert (Hl : len buff = len pre + 23) by (rewrite Hb; len_simpl; lia).
  assert (Hp : 5 <= len pre)
    by (unfold pre; pose proof (len_nonneg body); len_simpl; lia).
  split; [rewrite Hd; exact Hl|].
  assert (Hfit' : 5 + len body <= MaxUint32)
    by (unfold body; rewrite <- encodedSize_body; exact Hfit).
  rewrite (DeserializeWith_prefix read32 read64 fmt body rest _ _ _ _ s pre
             buff Hdec eq_refl Hb Hfit').
  replace (len buff - 7) with (len pre + 16) by lia.
  rewrite E1, E2, E3, E4, Hf.
  destruct (read64 buff (len pre + 16)) as [[v next]|]; [|reflexivity].
  rewrite slice_0 by lia.
  replace (firstn (Z.to_nat (len buff - 24)) buff) with (removelast (data t));
    [reflexivity|].
  rewrite Hd, removelast_firstn_len.
  replace (Z.to_nat (len buff - 24)) with (Nat.pred (length pre))
    by (unfold len in *; lia).
  rewrite Hb, firstn_app.
  replace (Nat.pred (length pre) - length pre)%nat with 0%nat by lia.
  rewrite firstn_O. now rewrite app_nil_r.
Qed.

(** C3, as the code has it: [Deserialize] validates nothing and cannot
    report a corrupt table, whatever the read helpers of [encoding] do.  On
    the serialization of a built table without its last byte, the format and
    the four 32-bit fields of the footer are read inside the buffer and
    overwrite the receiver's; the 8-byte read of [creationTime] is then asked
    at 7 bytes before the end of the buffer, so the 8 bytes do not lie in
    the buffer.  The rest is the helper's: if it panics the call panics,
    with [creationTime] and [data] as they were; if it yields a value and an
    offset, the call returns that offset, with the value as [creationTime]
    and the table's data less its last byte as [data].  No input makes the
    call return an error. *)
Theorem Deserialize_truncated (read32 read64 : reader) (fmt : byte)
        (h1 h2 : N) (it : Iterator) (now : Z) (b : built) (s : SSTable) :
  decodesLE 4 read32 ->
  BuildSSTable fmt h1 h2 it now = Returned b ->
  let buff := removelast (Serialize (table b)) in
  let r := DeserializeWith read32 read64 buff 0 s in
  len buff = len (Serialize (table b)) - 1 /\
  slice buff (len buff - 7) (len buff - 7 + 8) = None /\
  match read64 buff (len buff - 7) with
  | None =>
      (exists p, snd r = Panicked p) /\
      fst r = {| format := format (table b);
                 maxKeyLength := maxKeyLength (table b);
                 numEntries := numEntries (table b);
                 numDeletes := numDeletes (table b);
                 indexOffset := indexOffset (table b);
                 creationTime := creationTime s;
                 data := data s |}
  | Some (v, next) =>
      snd r = Returned next /\
      fst r = {| format := format (table b);
                 maxKeyLength := maxKeyLength (table b);
                 numEntries := numEntries (table b);
                 numDeletes := numDeletes (table b);
                 indexOffset := indexOffset (table b);
                 creationTime := v;
                 data := removelast (data (table b)) |}
  end /\
  (forall (r32 r64 : reader) buff0 offset s0 e,
      snd (DeserializeWith r32 r64 buff0 offset s0) <> Failed e).
Proof.
  intros Hdec H buff r. apply BuildSSTable_inv in H.
  destruct H as (_ & Hfit & ->). cbn [builtOf table] in *.
  destruct (DeserializeWith_cut read32 read64 fmt (items it) now s _ buff
              Hdec Hfit eq_refl eq_refl) as [Hl Hr].
  fold r in Hr.
  split; [rewrite Hl, Serialize_eq, len_app, len_footer; lia|].
  split; [apply slice_None; lia|].
  split; [|intros; apply DeserializeWith_never_Failed].
  rewrite Hr. destruct (read64 buff (len buff - 7)) as [[v next]|].
  - split; reflexivity.
  - split; [eexists|]; reflexivity.
Qed.

Lemma Deserialize_truncated_witness :
  let buff := removelast (Serialize (table sampleBuilt)) in
  let r := DeserializeWith encoding.ReadUint32FromBufferLE
             encoding.ReadUint64FromBufferLE buff 0 emptySSTable in
  len buff = len (Serialize (table sampleBuilt)) - 1 /\
  slice buff (len buff - 7) (len buff - 7 + 8) = None /\
  match encoding.ReadUint64FromBufferLE buff (len buff - 7) with
  | None =>
      (exists p, snd r = Panicked p) /\
      fst r = {| format := format (table sampleBuilt);
                 maxKeyLength := maxKeyLength (table sampleBuilt);
                 numEntries := numEntries (table sampleBuilt);
                 numDeletes := numDeletes (table sampleBuilt);
                 indexOffset := indexOffset (table sampleBuilt);
                 creationTime := creationTime emptySSTable;
                 data := data emptySSTable |}
  | Some (v, next) =>
      snd r = Returned next /\
      fst r = {| format := format (table sampleBuilt);
                 maxKeyLength := maxKeyLength (table sampleBuilt);
                 numEntries := numEntries (table sampleBuilt);
                 numDeletes := numDeletes (table sampleBuilt);
                 indexOffset := indexOffset (table sampleBuilt);
                 creationTime := v;
                 data := removelast (data (table sampleBuilt)) |}
  end /\
  (forall (r32 r64 : reader) buff0 offset s0 e,
      snd (DeserializeWith r32 r64 buff0 offset s0) <> Failed e).
Proof.
  apply (Deserialize_truncated encoding.ReadUint32FromBufferLE
           encoding.ReadUint64FromBufferLE Byte.x01 0 0 (iter_of sampleEntries)
           1700000000000 sampleBuilt emptySSTable).
  - exact ReadUint32_decodesLE.
  - vm_compute. reflexivity.
Defined.

(** C3 as stated fails on the serialization of the sample table (123 bytes,
    99 of data) without its last byte.  Whatever the read helpers do outside
    the buffer, the call reports no error and leaves the receiver with the
    table's [numEntries]; it either panics, with the receiver's data as it
    was, or returns a table of 98 data bytes. *)
Lemma Deserialize_truncated_counterexample :
  BuildSSTable Byte.x01 0 0 (iter_of sampleEntries) 1700000000000
    = Returned sampleBuilt /\
  len (data (table sampleBuilt)) = 99 /\
  len (removelast (Serialize (table sampleBuilt))) = 122 /\
  (forall read32 read64 : reader,
      decodesLE 4 read32 ->
      let r := DeserializeWith read32 read64
                 (removelast (Serialize (table sampleBuilt))) 0 emptySSTable in
      (forall e, snd r <> Failed e) /\
      fst r <> emptySSTable /\
      numEntries (fst r) = 3 /\
      ((exists p, snd r = Panicked p) /\ data (fst r) = [] \/
       (exists next, snd r = Returned next) /\ len (data (fst r)) = 98)).
Proof.
  split; [exact sampleBuilt_eq|].
  split; [vm_compute; reflexivity|].
  split; [vm_compute; reflexivity|].
  intros read32 read64 Hdec r.
  split; [intros e; apply DeserializeWith_never_Failed|].
  assert (Hfit : encodedSize sampleEntries <= MaxUint32)
    by (vm_compute; discriminate).
  destruct (DeserializeWith_cut read32 read64 Byte.x01 sampleEntries
              1700000000000 emptySSTable _ _ Hdec Hfit eq_refl eq_refl)
    as [_ Hr].
  change (tableOf Byte.x01 sampleEntries 1700000000000)
    with (table sampleBuilt) in Hr.
  fold r in Hr. rewrite Hr.
  destruct (read64 _ _) as [[v next]|]; cbn [fst snd numEntries data].
  - split; [discriminate|]. split; [vm_compute; reflexivity|].
    right. split; [eexists; reflexivity|]. vm_compute. reflexivity.
  - split; [discriminate|]. split; [vm_compute; reflexivity|].
    left. split; [eexists|]; reflexivity.
Qed.

(** ** The pointer of the header and the footer *)

Lemma slice_suffix (pre suf : list byte) (lo hi : Z) :
  lo = len pre -> hi = lo + len suf -> slice (pre ++ suf) lo hi = Some suf.
Proof.
  intros Hlo Hhi. rewrite <- (app_nil_r suf) at 1.
  now apply slice_middle.
Qed.

(** C4, as the code has it: in the serialization of a built table, bytes
    [1..5) hold, little-endian, the offset at which the 24-byte footer starts,
    which is the length of the data buffer and the end of the index region
    ([indexOffset + numEntries * (maxKeyLength + 4)]); the index region lies
    between [indexOffset] and that offset, and the footer is the last 24
    bytes. *)
Theorem pointer_is_footer_start (fmt : byte) (h1 h2 : N) (it : Iterator)
        (now : Z) (b : built) :
  BuildSSTable fmt h1 h2 it now = Returned b ->
  let t := table b in
  let ser := Serialize t in
  encoding.ReadUint32FromBufferLE ser 1 = Some (len ser - 24, 5) /\
  len ser - 24 = len (data t) /\
  len ser - 24 = indexOffset t + numEntries t * (maxKeyLength t + 4) /\
  slice ser (indexOffset t) (len ser - 24)
    = Some (indexRegion (maxKeyLength t) (indexOf 5 (items it))) /\
  slice ser (len ser - 24) (len ser) = Some (footer t).
Proof.
  intros H. apply BuildSSTable_inv in H. destruct H as (_ & Hfit & ->).
  set (es := items it) in *. cbn [builtOf table].
  set (t := tableOf fmt es now).
  cbn zeta. rewrite Serialize_eq, (len_app (data t)), len_footer.
  replace (len (data t) + 24 - 24) with (len (data t)) by lia.
  assert (Hd : len (data t) = encodedSize es) by apply len_layout.
  pose proof (len_nonneg (entriesRegion es)) as He.
  repeat split.
  - replace (data t) with (layout fmt es) by reflexivity.
    unfold layout. cbn [app]. rewrite <- !app_assoc.
    match goal with |- context [entriesRegion es ++ ?r] =>
      pose proof (read32_middle [fmt] (entriesRegion es ++ r)
                    (encodedSize es) 1 eq_refl) as R
    end.
    cbn [app] in R. rewrite R. fold (layout fmt es).
    change (layout fmt es) with (data t). rewrite Hd.
    do 2 f_equal. apply uint32_small. unfold encodedSize in *.
    pose proof (maxLen_nonneg es). nia.
  - rewrite Hd. unfold encodedSize. reflexivity.
  - replace (data t) with (layout fmt es) by reflexivity. unfold layout.
    change (fmt :: le_split 4 (encodedSize es) ++ entriesRegion es ++
            indexRegion (maxLen es) (indexOf 5 es))
      with ((fmt :: le_split 4 (encodedSize es)) ++ entriesRegion es ++
            indexRegion (maxLen es) (indexOf 5 es)).
    rewrite (app_assoc (fmt :: _)), <- (app_assoc ((fmt :: _) ++ _)).
    apply slice_middle.
    + unfold t. cbn [indexOffset tableOf]. len_simpl. lia.
    + unfold t. cbn [indexOffset maxKeyLength tableOf]. len_simpl. lia.
  - apply slice_suffix; [reflexivity|]. rewrite len_footer. reflexivity.
Qed.

Lemma pointer_is_footer_start_witness :
  let t := table sampleBuilt in
  let ser := Serialize t in
  encoding.ReadUint32FromBufferLE ser 1 = Some (len ser - 24, 5) /\
  len ser - 24 = len (data t) /\
  len ser - 24 = indexOffset t + numEntries t * (maxKeyLength t + 4) /\
  slice ser (indexOffset t) (len ser - 24)
    = Some (indexRegion (maxKeyLength t)
              (indexOf 5 (items (iter_of sampleEntries)))) /\
  slice ser (len ser - 24) (len ser) = Some (footer t).
Proof.
  apply (pointer_is_footer_start Byte.x01 0 0 (iter_of sampleEntries)
           1700000000000 sampleBuilt).
  vm_compute. reflexivity.
Defined.

(** C4 as stated fails: in the serialization of the sample table, bytes
    [1..5) hold 99, the start of the footer, and the index region starts at
    60. *)
Lemma pointer_counterexample :
  BuildSSTable Byte.x01 0 0 (iter_of sampleEntries) 1700000000000
    = Returned sampleBuilt /\
  encoding.ReadUint32FromBufferLE (Serialize (table sampleBuilt)) 1
    = Some (99, 5) /\
  indexOffset (table sampleBuilt) = 60 /\
  slice (Serialize (table sampleBuilt)) 1 5
    <> Some (le_split 4 (indexOffset (table sampleBuilt))).
Proof.
  split; [exact sampleBuilt_eq|].
  vm_compute. repeat split. discriminate.
Qed.

(** ** Deserialize and its offset argument *)

(** Whatever the start offset, a call that returns has set the data to the
    buffer without its last 24 bytes, from index 0. *)
Lemma Deserialize_data (buff : list byte) (offset : Z) (s s' : SSTable)
      (next : Z) :
  Deserialize buff offset s = (s', Returned next) ->
  slice buff 0 (len buff - 24) = Some (data s').
Proof.
  unfold Deserialize, DeserializeWith, bind, check, assign, ret.
  repeat match goal with
         | |- context [match ?x with _ => _ end] =>
             match x with
             | index _ _ => destruct x
             | encoding.ReadUint32FromBufferLE _ _ => destruct x as [[? ?]|]
             | encoding.ReadUint64FromBufferLE _ _ => destruct x as [[? ?]|]
             | slice _ _ _ => destruct x
             end
         end; try discriminate.
  intros [= <- _]. reflexivity.
Qed.

(** Whatever the start offset, the offset returned is 24 past the pointer
    read from the header, taken as an index of the whole buffer. *)
Lemma Deserialize_next (buff : list byte) (offset : Z) (s s' : SSTable)
      (next : Z) :
  Deserialize buff offset s = (s', Returned next) ->
  exists pointer o,
    encoding.ReadUint32FromBufferLE buff (offset + 1) = Some (pointer, o) /\
    next = pointer + 24.
Proof.
  unfold Deserialize, DeserializeWith, bind, check, assign, ret.
  destruct (index buff offset); [|discriminate].
  destruct (encoding.ReadUint32FromBufferLE buff (offset + 1))
    as [[pointer o]|] eqn:E0; [|discriminate].
  unfold encoding.ReadUint32FromBufferLE, encoding.ReadUint64FromBufferLE.
  repeat match goal with
         | |- context [match slice ?b ?lo ?hi with _ => _ end] =>
             destruct (slice b lo hi)
         end; try discriminate.
  intros [= _ <-]. exists pointer, o. split; [reflexivity|lia].
Qed.

(** C5, as the code has it: for a buffer that begins, at offset 0, with the
    serialization of a built table (anything may follow it),
    [Deserialize(bytes, 0)] takes the table's fields, sets the data to
    [bytes[0 : len(bytes)-24]] and returns the offset just past that table's
    footer.  At any start offset, a call that returns has set the data to
    [bytes[0 : len(bytes)-24]] and returns the pointer of the header plus
    24. *)
Theorem Deserialize_at_zero (fmt : byte) (h1 h2 : N) (it : Iterator)
        (now : Z) (b : built) (rest : list byte) (s : SSTable) :
  BuildSSTable fmt h1 h2 it now = Returned b ->
  let bytes := Serialize (table b) ++ rest in
  (exists s',
     Deserialize bytes 0 s = (s', Returned (len (Serialize (table b)))) /\
     slice bytes 0 (len bytes - 24) = Some (data s') /\
     format s' = format (table b) /\
     maxKeyLength s' = maxKeyLength (table b) /\
     numEntries s' = numEntries (table b) /\
     numDeletes s' = numDeletes (table b) /\
     indexOffset s' = indexOffset (table b) /\
     creationTime s' = creationTime (table b)) /\
  (forall buff offset s0 s1 next,
     Deserialize buff offset s0 = (s1, Returned next) ->
     slice buff 0 (len buff - 24) = Some (data s1) /\
     exists pointer o,
       encoding.ReadUint32FromBufferLE buff (offset + 1) = Some (pointer, o) /\
       next = pointer + 24).
Proof.
  intros H. apply BuildSSTable_inv in H. destruct H as (_ & Hfit & ->).
  cbn [builtOf table]. cbn zeta.
  pose proof (Deserialize_Serialize fmt (items it) now rest s Hfit) as D.
  cbn zeta in D.
  split.
  - eexists. split; [exact D|].
    split; [|repeat split].
    apply (Deserialize_data _ _ _ _ _ D).
  - intros buff offset s0 s1 next Hd. split.
    + apply (Deserialize_data _ _ _ _ _ Hd).
    + apply (Deserialize_next _ _ _ _ _ Hd).
Qed.

Lemma Deserialize_at_zero_witness :
  let bytes := Serialize (table sampleBuilt)
               ++ Serialize (table sampleBuilt) in
  (exists s',
     Deserialize bytes 0 emptySSTable
       = (s', Returned (len (Serialize (table sampleBuilt)))) /\
     slice bytes 0 (len bytes - 24) = Some (data s') /\
     format s' = format (table sampleBuilt) /\
     maxKeyLength s' = maxKeyLength (table sampleBuilt) /\
     numEntries s' = numEntries (table sampleBuilt) /\
     numDeletes s' = numDeletes (table sampleBuilt) /\
     indexOffset s' = indexOffset (table sampleBuilt) /\
     creationTime s' = creationTime (table sampleBuilt)) /\
  (forall buff offset s0 s1 next,
     Deserialize buff offset s0 = (s1, Returned next) ->
     slice buff 0 (len buff - 24) = Some (data s1) /\
     exists pointer o,
       encoding.ReadUint32FromBufferLE buff (offset + 1) = Some (pointer, o) /\
       next = pointer + 24).
Proof.
  apply (Deserialize_at_zero Byte.x01 0 0 (iter_of sampleEntries)
           1700000000000 sampleBuilt (Serialize (table sampleBuilt))
           emptySSTable).
  vm_compute. reflexivity.
Defined.

(** C5 as stated fails: with one byte in front of the serialization of the
    sample table, [Deserialize(bytes, 1)] returns, but the data is not
    [bytes[1 : len(bytes)-24]], the offset returned is not the one just past
    the table, and the fields are not the table's. *)
Lemma Deserialize_offset_counterexample :
  BuildSSTable Byte.x01 0 0 (iter_of sampleEntries) 1700000000000
    = Returned sampleBuilt /\
  let bytes := Byte.x00 :: Serialize (table sampleBuilt) in
  exists s' next,
    Deserialize bytes 1 emptySSTable = (s', Returned next) /\
    slice bytes 1 (len bytes - 24) <> Some (data s') /\
    next <> 1 + len (Serialize (table sampleBuilt)) /\
    numEntries s' <> numEntries (table sampleBuilt).
Proof.
  split; [exact sampleBuilt_eq|].
  cbn zeta. eexists. eexists. split; [vm_compute; reflexivity|].
  vm_compute. repeat split; discriminate.
Qed.

(** ** Delete accounting *)

(** C8: the table built from the entries [items it] has [numDeletes] equal
    to the number of entries with an empty value and [numEntries] equal to
    the number of entries, and when there is at least one entry
    [DeleteRatio] is the [float64] quotient of the two counts. *)
Theorem delete_accounting (fmt : byte) (h1 h2 : N) (it : Iterator) (now : Z)
        (b : built) :
  BuildSSTable fmt h1 h2 it now = Returned b ->
  numDeletes (table b) = countDeletes (items it) /\
  numEntries (table b) = Z.of_nat (length (items it)) /\
  numDeletes (table b) <= numEntries (table b) /\
  (0 < numEntries (table b) ->
   DeleteRatio (table b) =
   float64_div (float64_of_uint32 (countDeletes (items it)))
               (float64_of_uint32 (Z.of_nat (length (items it))))).
Proof.
  intros H. apply BuildSSTable_inv in H. destruct H as (_ & Hfit & ->).
  cbn [builtOf table]. unfold DeleteRatio.
  cbn [tableOf numDeletes numEntries].
  pose proof (countDeletes_bounds (items it)) as Hd.
  repeat split; lia.
Qed.

Lemma delete_accounting_witness :
  numDeletes (table sampleBuilt) = countDeletes (items (iter_of sampleEntries)) /\
  numEntries (table sampleBuilt)
    = Z.of_nat (length (items (iter_of sampleEntries))) /\
  numDeletes (table sampleBuilt) <= numEntries (table sampleBuilt) /\
  (0 < numEntries (table sampleBuilt) ->
   DeleteRatio (table sampleBuilt) =
   float64_div
     (float64_of_uint32 (countDeletes (items (iter_of sampleEntries))))
     (float64_of_uint32 (Z.of_nat (length (items (iter_of sampleEntries)))))).
Proof.
  apply (delete_accounting Byte.x01 0 0 (iter_of sampleEntries)
           1700000000000 sampleBuilt).
  vm_compute. reflexivity.
Defined.

(** The scenario of the sample entries: three entries, one delete, and the
    ratio is the [float64] nearest to one third,
    6004799503160661 * 2^-54. *)
Example sample_counts :
  numEntries (table sampleBuilt) = 3 /\
  numDeletes (table sampleBuilt) = 1 /\
  DeleteRatio (table sampleBuilt) = S754_finite false 6004799503160661 (-54).
Proof. vm_compute. repeat split. Qed.

(** Without entries the ratio is 0/0, not a number. *)
Example empty_ratio :
  BuildSSTable Byte.x01 0 0 Exhausted 0 = Returned (builtOf Byte.x01 [] 0) /\
  DeleteRatio (table (builtOf Byte.x01 [] 0)) = S754_nan.
Proof. vm_compute. split; reflexivity. Qed.

(** ** Versions *)

Lemma keyVersion_range (key : list byte) :
  8 <= len key -> 0 <= keyVersion key <= MaxUint64.
Proof.
  intros H. unfold keyVersion, MaxUint64.
  pose proof (le_combine_bound (rev (skipn (length key - 8) key))) as B.
  rewrite length_rev, length_skipn in B. unfold len in H.
  replace (8 * Z.of_nat (length key - (length key - 8))) with 64 in B by lia.
  change (2 ^ 64) with 18446744073709551616 in B. lia.
Qed.

Lemma advance_versions (st : buildState) (kv : KV) (v : Z) :
  b_minVersion (advance st kv v) = Z.min v (b_minVersion st) /\
  b_maxVersion (advance st kv v) = Z.max v (b_maxVersion st).
Proof.
  cbn [advance b_minVersion b_maxVersion].
  destruct (Z.ltb_spec v (b_minVersion st));
    destruct (Z.ltb_spec (b_maxVersion st) v); lia.
Qed.

Lemma run_minVersion (st : buildState) (es : list KV) :
  (forall kv, In kv es -> b_minVersion (run st es) <= keyVersion (Key kv)) /\
  b_minVersion (run st es) <= b_minVersion st /\
  (b_minVersion (run st es) = b_minVersion st \/
   exists kv, In kv es /\ keyVersion (Key kv) = b_minVersion (run st es)).
Proof.
  revert st. induction es as [|kv es IH]; intros st.
  - cbn [run fold_left]. repeat split; auto; try lia. intros _ [].
  - rewrite run_cons.
    destruct (IH (advance st kv (keyVersion (Key kv)))) as (Hall & Hle & Att).
    destruct (advance_versions st kv (keyVersion (Key kv))) as [Emin _].
    rewrite Emin in Hle, Att. split; [|split].
    + intros x [<-|Hx]; [lia | now apply Hall].
    + lia.
    + destruct Att as [E|(x & Hx & E)].
      * destruct (Z.min_spec (keyVersion (Key kv)) (b_minVersion st))
          as [[_ M]|[_ M]]; rewrite M in E.
        -- right. exists kv. split; [now left | now symmetry].
        -- now left.
      * right. exists x. split; [now right | exact E].
Qed.

Lemma run_maxVersion (st : buildState) (es : list KV) :
  (forall kv, In kv es -> keyVersion (Key kv) <= b_maxVersion (run st es)) /\
  b_maxVersion st <= b_maxVersion (run st es) /\
  (b_maxVersion (run st es) = b_maxVersion st \/
   exists kv, In kv es /\ keyVersion (Key kv) = b_maxVersion (run st es)).
Proof.
  revert st. induction es as [|kv es IH]; intros st.
  - cbn [run fold_left]. repeat split; auto; try lia. intros _ [].
  - rewrite run_cons.
    destruct (IH (advance st kv (keyVersion (Key kv)))) as (Hall & Hle & Att).
    destruct (advance_versions st kv (keyVersion (Key kv))) as [_ Emax].
    rewrite Emax in Hle, Att. split; [|split].
    + intros x [<-|Hx]; [lia | now apply Hall].
    + lia.
    + destruct Att as [E|(x & Hx & E)].
      * destruct (Z.max_spec (keyVersion (Key kv)) (b_maxVersion st))
          as [[_ M]|[_ M]]; rewrite M in E.
        -- now left.
        -- right. exists kv. split; [now left | now symmetry].
      * right. exists x. split; [now right | exact E].
Qed.

Lemma validFrom_keys (prev : option (list byte)) (es : list KV) :
  validFrom prev es = true -> Forall (fun kv => 8 <= len (Key kv)) es.
Proof.
  revert prev. induction es as [|kv es IH]; intros prev H; [constructor|].
  cbn [validFrom] in H. rewrite !andb_true_iff, Z.leb_le in H.
  destruct H as ((_ & Hk) & Hr). constructor; eauto.
Qed.

(** C9: when [BuildSSTable] returns for a non-empty sequence, the version of
    every entry lies between the [minVersion] and the [maxVersion] returned,
    and each of the two is the version of some entry. *)
Theorem version_bounds (fmt : byte) (h1 h2 : N) (it : Iterator) (now : Z)
        (b : built) :
  BuildSSTable fmt h1 h2 it now = Returned b ->
  items it <> [] ->
  (forall kv, In kv (items it) ->
     minVersion b <= keyVersion (Key kv) <= maxVersion b) /\
  (exists kv, In kv (items it) /\ keyVersion (Key kv) = minVersion b) /\
  (exists kv, In kv (items it) /\ keyVersion (Key kv) = maxVersion b).
Proof.
  intros H Hne. apply BuildSSTable_inv in H. destruct H as (Hv & _ & ->).
  cbn [builtOf minVersion maxVersion].
  destruct (run_minVersion (initBuild fmt) (items it)) as (Hlo & _ & Amin).
  destruct (run_maxVersion (initBuild fmt) (items it)) as (Hhi & _ & Amax).
  cbn [initBuild b_minVersion b_maxVersion] in Amin, Amax.
  apply validFrom_keys in Hv. rewrite Forall_forall in Hv.
  destruct (items it) as [|kv0 es] eqn:E; [congruence|].
  assert (H0 : In kv0 (kv0 :: es)) by now left.
  pose proof (keyVersion_range _ (Hv _ H0)) as R0.
  pose proof (Hlo _ H0) as B0. pose proof (Hhi _ H0) as B1.
  split; [intros kv Hkv; split; [now apply Hlo | now apply Hhi]|]. split.
  - destruct Amin as [Em|Hex]; [|exact Hex].
    exists kv0. split; [exact H0|lia].
  - destruct Amax as [Em|Hex]; [|exact Hex].
    exists kv0. split; [exact H0|lia].
Qed.

Lemma version_bounds_witness :
  (forall kv, In kv (items (iter_of sampleEntries)) ->
     minVersion sampleBuilt <= keyVersion (Key kv) <= maxVersion sampleBuilt) /\
  (exists kv, In kv (items (iter_of sampleEntries)) /\
              keyVersion (Key kv) = minVersion sampleBuilt) /\
  (exists kv, In kv (items (iter_of sampleEntries)) /\
              keyVersion (Key kv) = maxVersion sampleBuilt).
Proof.
  apply (version_bounds Byte.x01 0 0 (iter_of sampleEntries) 1700000000000
           sampleBuilt).
  - vm_compute. reflexivity.
  - vm_compute. discriminate.
Defined.

Example sample_versions :
  minVersion sampleBuilt = 3 /\ maxVersion sampleBuilt = 9.
Proof. vm_compute. split; reflexivity. Qed.

(** ** The key-length precondition *)

Lemma finishBuild_no_panic (fmt : byte) (now : Z) (st : buildState) (p : panic) :
  finishBuild fmt now st <> Panicked p.
Proof.
  unfold finishBuild. destruct (MaxUint32 <? _); discriminate.
Qed.

Lemma buildLoop_no_SliceBounds (it : Iterator) (st : buildState) :
  Forall (fun kv => 8 <= len (Key kv)) (items it) ->
  buildLoop it st <> Panicked SliceBounds.
Proof.
  revert st. induction it as [|e|kv rest IH|kv e]; intros st Hk;
    cbn [buildLoop items] in *; try discriminate.
  - inversion Hk as [|? ? Hkv Hrest]; subst. rewrite buildStep_cases.
    destruct (outOfOrder _ _); [discriminate|].
    replace (len (Key kv) <? 8) with false by (symmetry; apply Z.ltb_ge; lia).
    cbn [obind]. now apply IH.
  - inversion Hk as [|? ? Hkv Hrest]; subst. rewrite buildStep_cases.
    destruct (outOfOrder _ _); [discriminate|].
    replace (len (Key kv) <? 8) with false by (symmetry; apply Z.ltb_ge; lia).
    discriminate.
Qed.

(** C10: the version is sliced off the key with no check of its length.
    An entry with a 1-byte key makes [BuildSSTable] panic on that slice, and
    when every key the iterator hands out has 8 bytes or more the slice never
    panics. *)
Theorem key_length_precondition :
  (exists it : Iterator,
     (exists kv, In kv (items it) /\ len (Key kv) < 8) /\
     BuildSSTable Byte.x01 0 0 it 0 = Panicked SliceBounds) /\
  (forall (fmt : byte) (h1 h2 : N) (it : Iterator) (now : Z),
     Forall (fun kv => 8 <= len (Key kv)) (items it) ->
     BuildSSTable fmt h1 h2 it now <> Panicked SliceBounds).
Proof.
  split.
  - exists (iter_of [mkKV [Byte.x61] [Byte.x76]]). split.
    + exists (mkKV [Byte.x61] [Byte.x76]). split; [now left|].
      vm_compute. reflexivity.
    + vm_compute. reflexivity.
  - intros fmt h1 h2 it now Hk. unfold BuildSSTable.
    pose proof (buildLoop_no_SliceBounds it (initBuild fmt) Hk) as Hl.
    destruct (buildLoop it (initBuild fmt)) as [st|e|p]; cbn [obind].
    + apply finishBuild_no_panic.
    + discriminate.
    + congruence.
Qed.

Lemma key_length_precondition_witness :
  BuildSSTable Byte.x01 0 0 (iter_of sampleEntries) 1700000000000
  <> Panicked SliceBounds.
Proof.
  apply (proj2 key_length_precondition Byte.x01 0%N 0%N (iter_of sampleEntries)
           1700000000000).
  repeat constructor; vm_compute; discriminate.
Defined.

(** ** Ordering enforcement *)

Lemma validFrom_pair (prev : option (list byte)) (pre post : list KV)
      (kv1 kv2 : KV) :
  validFrom prev (pre ++ kv1 :: kv2 :: post) = true ->
  bytes_Compare (Key kv1) (Key kv2) < 0.
Proof.
  revert prev. induction pre as [|p pre IH]; intros prev H.
  - cbn [app validFrom outOfOrder] in H. rewrite !andb_true_iff in H.
    destruct H as (_ & (Hc & _) & _).
    apply negb_true_iff, Z.leb_gt in Hc. exact Hc.
  - cbn [app validFrom] in H. rewrite !andb_true_iff in H.
    destruct H as (_ & H). eauto.
Qed.

Lemma buildLoop_head_outOfOrder (it : Iterator) (st : buildState) (kv : KV)
      (post : list KV) :
  items it = kv :: post ->
  outOfOrder (b_prevKey st) (Key kv) = true ->
  buildLoop it st = Panicked KeysNotInOrder.
Proof.
  intros Hi Ho.
  destruct it as [|e|kv' rest|kv' e]; cbn [items] in Hi; try discriminate;
    injection Hi as -> _; cbn [buildLoop]; rewrite buildStep_cases, Ho;
    reflexivity.
Qed.

Lemma buildLoop_pair_panics (it : Iterator) (st : buildState)
      (pre post : list KV) (kv1 kv2 : KV) :
  items it = pre ++ kv1 :: kv2 :: post ->
  0 <= bytes_Compare (Key kv1) (Key kv2) ->
  buildLoop it st = Panicked KeysNotInOrder \/
  buildLoop it st = Panicked SliceBounds.
Proof.
  revert st pre.
  induction it as [|e|kv rest IH|kv e]; intros st pre Hi Hc; cbn [items] in Hi.
  - destruct pre; discriminate.
  - destruct pre; discriminate.
  - cbn [buildLoop]. rewrite buildStep_cases.
    destruct (outOfOrder (b_prevKey st) (Key kv)); [now left|].
    destruct (len (Key kv) <? 8); [now right|].
    cbn [obind]. destruct pre as [|p pre]; cbn [app] in Hi.
    + injection Hi as -> Hr. left.
      apply (buildLoop_head_outOfOrder rest _ kv2 post Hr).
      cbn [advance b_prevKey outOfOrder]. now apply Z.leb_le.
    + injection Hi as -> Hr. now apply (IH _ pre).
  - destruct pre as [|p [|q pre]]; discriminate.
Qed.

Lemma buildLoop_outOfOrder (it : Iterator) (st : buildState)
      (pre post : list KV) (kv1 kv2 : KV) :
  items it = pre ++ kv1 :: kv2 :: post ->
  0 <= bytes_Compare (Key kv1) (Key kv2) ->
  Forall (fun kv => 8 <= len (Key kv)) (pre ++ [kv1]) ->
  buildLoop it st = Panicked KeysNotInOrder.
Proof.
  revert st pre.
  induction it as [|e|kv rest IH|kv e]; intros st pre Hi Hc Hk;
    cbn [items] in Hi.
  - destruct pre; discriminate.
  - destruct pre; discriminate.
  - cbn [buildLoop]. rewrite buildStep_cases.
    destruct (outOfOrder (b_prevKey st) (Key kv)); [reflexivity|].
    destruct pre as [|p pre]; cbn [app] in Hi, Hk;
      injection Hi as E Hr; inversion Hk as [|? ? Hkv Hrest]; subst;
      match goal with
      | |- context [len (Key ?x) <? 8] =>
          replace (len (Key x) <? 8) with false
            by (symmetry; apply Z.ltb_ge; lia)
      end;
      cbn [obind].
    + apply (buildLoop_head_outOfOrder rest _ kv2 post Hr).
      cbn [advance b_prevKey outOfOrder]. now apply Z.leb_le.
    + now apply (IH _ pre).
  - destruct pre as [|p [|q pre]]; discriminate.
Qed.

(** C6: when two consecutive entries handed out by the iterator have the
    second key not strictly greater than the first, [BuildSSTable] panics
    and returns no table.  The panic is the one of the order check, unless
    an entry before the offending one has a key too short to carry a version,
    which stops the build earlier on the version slice. *)
Theorem ordering_enforced (fmt : byte) (h1 h2 : N) (it : Iterator) (now : Z)
        (pre post : list KV) (kv1 kv2 : KV) :
  items it = pre ++ kv1 :: kv2 :: post ->
  0 <= bytes_Compare (Key kv1) (Key kv2) ->
  (BuildSSTable fmt h1 h2 it now = Panicked KeysNotInOrder \/
   BuildSSTable fmt h1 h2 it now = Panicked SliceBounds) /\
  (forall b, BuildSSTable fmt h1 h2 it now <> Returned b) /\
  (Forall (fun kv => 8 <= len (Key kv)) (pre ++ [kv1]) ->
   BuildSSTable fmt h1 h2 it now = Panicked KeysNotInOrder).
Proof.
  intros Hi Hc.
  assert (Hp : BuildSSTable fmt h1 h2 it now = Panicked KeysNotInOrder \/
               BuildSSTable fmt h1 h2 it now = Panicked SliceBounds).
  { unfold BuildSSTable.
    destruct (buildLoop_pair_panics it (initBuild fmt) pre post kv1 kv2 Hi Hc)
      as [E|E]; rewrite E; [now left|now right]. }
  split; [exact Hp|]. split.
  - intros b H. destruct Hp as [E|E]; rewrite E in H; discriminate.
  - intros Hk. unfold BuildSSTable.
    now rewrite (buildLoop_outOfOrder it _ pre post kv1 kv2 Hi Hc Hk).
Qed.

Lemma ordering_enforced_witness :
  (forall b,
     BuildSSTable Byte.x01 0 0
       (iter_of (sampleEntries ++ [mkKV (Byte.x62 :: versionSuffix 3) []])) 0
     <> Returned b) /\
  BuildSSTable Byte.x01 0 0
    (iter_of (sampleEntries ++ [mkKV (Byte.x62 :: versionSuffix 3) []])) 0
  = Panicked KeysNotInOrder.
Proof.
  destruct (ordering_enforced Byte.x01 0 0
              (iter_of (sampleEntries ++ [mkKV (Byte.x62 :: versionSuffix 3) []]))
              0
              [mkKV (Byte.x61 :: versionSuffix 5) [Byte.x76; Byte.x31];
               mkKV (Byte.x62 :: versionSuffix 3) []]
              []
              (mkKV (Byte.x63 :: versionSuffix 9) [Byte.x76; Byte.x33])
              (mkKV (Byte.x62 :: versionSuffix 3) [])) as (_ & H1 & H2).
  - vm_compute. reflexivity.
  - vm_compute. discriminate.
  - split; [exact H1|]. apply H2.
    repeat constructor; vm_compute; discriminate.
Defined.

(** A duplicate key, and a key too short for a version in front of one. *)
Example duplicate_key_panics :
  BuildSSTable Byte.x01 0 0
    (iter_of [mkKV (Byte.x61 :: versionSuffix 5) [];
              mkKV (Byte.x61 :: versionSuffix 5) [Byte.x76]]) 0
  = Panicked KeysNotInOrder.
Proof. vm_compute. reflexivity. Qed.

Example short_key_panics_first :
  BuildSSTable Byte.x01 0 0
    (iter_of [mkKV [Byte.x61] []; mkKV [Byte.x61] []]) 0
  = Panicked SliceBounds.
Proof. vm_compute. reflexivity. Qed.

(** ** Capacity *)

(** C7: when the data buffer for the entries (header, entries region, index
    region) would be longer than [MaxUint32] bytes, [BuildSSTable] returns no
    table, and for an iterator that does not fail and hands out well-formed
    entries in strictly ascending order it returns the error
    ["SSTable too big"]. *)
Theorem table_too_large (fmt : byte) (h1 h2 : N) (it : Iterator) (now : Z) :
  MaxUint32 < encodedSize (items it) ->
  (forall b, BuildSSTable fmt h1 h2 it now <> Returned b) /\
  (it = iter_of (items it) ->
   validFrom None (items it) = true ->
   BuildSSTable fmt h1 h2 it now = Failed (errors_New "SSTable too big")).
Proof.
  intros Hbig. split.
  - intros b H. apply BuildSSTable_inv in H. lia.
  - intros Hit Hv. rewrite Hit, BuildSSTable_valid by assumption.
    destruct (Z.ltb_spec MaxUint32 (encodedSize (items it))); [reflexivity|lia].
Qed.

Lemma oversized_size : MaxUint32 < encodedSize oversizedEntries.
Proof.
  unfold encodedSize, oversizedEntries.
  pose proof (maxLen_nonneg
    [mkKV (Byte.x61 :: versionSuffix 5) (repeat Byte.x00 (Z.to_nat 4294967296))])
    as Hm.
  rewrite entriesRegion_cons, len_app, len_encodeEntry.
  cbv beta iota delta [Key Value]. rewrite len_repeat, Z2Nat.id by lia.
  pose proof (len_nonneg (Byte.x61 :: versionSuffix 5)).
  pose proof (len_nonneg (entriesRegion [])).
  unfold MaxUint32. cbv beta iota delta [length]. lia.
Qed.

Lemma table_too_large_witness :
  (forall b, BuildSSTable Byte.x01 0 0 (iter_of oversizedEntries) 0
             <> Returned b) /\
  BuildSSTable Byte.x01 0 0 (iter_of oversizedEntries) 0
  = Failed (errors_New "SSTable too big").
Proof.
  destruct (table_too_large Byte.x01 0 0 (iter_of oversizedEntries) 0)
    as [H1 H2].
  - rewrite items_iter_of. exact oversized_size.
  - split; [exact H1|]. apply H2.
    + now rewrite items_iter_of.
    + rewrite items_iter_of. reflexivity.
Defined.

(** ** Byte-wise comparison *)

Lemma bytes_Compare_refl (a : list byte) : bytes_Compare a a = 0.
Proof.
  induction a as [|x a IH]; cbn [bytes_Compare]; [reflexivity|].
  now rewrite Z.compare_refl.
Qed.

Lemma bytes_Compare_range (a b : list byte) :
  -1 <= bytes_Compare a b <= 1.
Proof.
  revert b. induction a as [|x a IH]; intros [|y b]; cbn [bytes_Compare];
    try lia.
  destruct (byte.unsigned x ?= byte.unsigned y); try lia. apply IH.
Qed.

Lemma bytes_Compare_antisym (a b : list byte) :
  bytes_Compare b a = - bytes_Compare a b.
Proof.
  revert b. induction a as [|x a IH]; intros [|y b]; cbn [bytes_Compare];
    try reflexivity.
  rewrite (Z.compare_antisym (byte.unsigned x) (byte.unsigned y)).
  destruct (byte.unsigned x ?= byte.unsigned y); cbn [CompOpp];
    try reflexivity.
  apply IH.
Qed.

Lemma bytes_Compare_eq (a b : list byte) :
  bytes_Compare a b = 0 -> a = b.
Proof.
  revert b. induction a as [|x a IH]; intros [|y b]; cbn [bytes_Compare];
    try discriminate; [reflexivity|].
  destruct (byte.unsigned x ?= byte.unsigned y) eqn:E; try discriminate.
  intros H. apply Z.compare_eq in E. apply byte.unsigned_inj in E.
  f_equal; auto.
Qed.

Lemma bytes_Compare_le_trans (a b c : list byte) :
  bytes_Compare a b <= 0 -> bytes_Compare b c <= 0 -> bytes_Compare a c <= 0.
Proof.
  revert b c. induction a as [|x a IH]; intros [|y b] [|z c];
    cbn [bytes_Compare]; try lia.
  destruct (Z.compare_spec (byte.unsigned x) (byte.unsigned y));
    destruct (Z.compare_spec (byte.unsigned y) (byte.unsigned z));
    destruct (Z.compare_spec (byte.unsigned x) (byte.unsigned z));
    try lia.
  apply IH.
Qed.

Lemma bytes_Compare_lt_le_trans (a b c : list byte) :
  bytes_Compare a b < 0 -> bytes_Compare b c <= 0 -> bytes_Compare a c < 0.
Proof.
  intros Hab Hbc.
  assert (Hac : bytes_Compare a c <= 0)
    by (apply (bytes_Compare_le_trans a b c); lia).
  destruct (Z.eq_dec (bytes_Compare a c) 0) as [E|]; [|lia].
  apply bytes_Compare_eq in E. subst c.
  rewrite (bytes_Compare_antisym a b) in Hbc. lia.
Qed.

Lemma bytes_Compare_le_lt_trans (a b c : list byte) :
  bytes_Compare a b <= 0 -> bytes_Compare b c < 0 -> bytes_Compare a c < 0.
Proof.
  intros Hab Hbc.
  assert (Hac : bytes_Compare a c <= 0)
    by (apply (bytes_Compare_le_trans a b c); lia).
  destruct (Z.eq_dec (bytes_Compare a c) 0) as [E|]; [|lia].
  apply bytes_Compare_eq in E. subst c.
  rewrite (bytes_Compare_antisym a b) in Hbc. lia.
Qed.

Lemma bytes_Compare_app_same (p a b : list byte) :
  bytes_Compare (p ++ a) (p ++ b) = bytes_Compare a b.
Proof.
  induction p as [|x p IH]; cbn [app bytes_Compare]; [reflexivity|].
  now rewrite Z.compare_refl.
Qed.

(** A key is not above itself with bytes appended. *)
Lemma bytes_Compare_app_ge (a u : list byte) :
  0 <= bytes_Compare (a ++ u) a.
Proof.
  rewrite <- (app_nil_r a) at 2. rewrite bytes_Compare_app_same.
  destruct u; cbn; lia.
Qed.

(** [a < b] comes in two ways: [a] is a proper prefix of [b], or the two
    differ at a byte. *)
Lemma bytes_Compare_lt_cases (a b : list byte) :
  bytes_Compare a b < 0 ->
  (exists r, r <> [] /\ b = a ++ r) \/
  (exists p x y a' b',
      a = p ++ x :: a' /\ b = p ++ y :: b' /\
      byte.unsigned x < byte.unsigned y).
Proof.
  revert b. induction a as [|x a IH]; intros [|y b]; cbn [bytes_Compare];
    try lia.
  - intros _. left. exists (y :: b). split; [discriminate|reflexivity].
  - destruct (Z.compare_spec (byte.unsigned x) (byte.unsigned y)) as [E|L|G];
      try lia.
    + apply byte.unsigned_inj in E. subst y. intros H.
      destruct (IH b H) as [(r & Hr & ->)|(p & x' & y' & a' & b' & -> & -> & L)].
      * left. exists r. split; [exact Hr|reflexivity].
      * right. exists (x :: p), x', y', a', b'. repeat split; auto.
    + intros _. right. exists [], x, y, a, b. repeat split; auto.
Qed.

Lemma bytes_Compare_differ (p a' b' u v : list byte) (x y : byte) :
  byte.unsigned x < byte.unsigned y ->
  bytes_Compare ((p ++ x :: a') ++ u) ((p ++ y :: b') ++ v) < 0.
Proof.
  intros L. rewrite <- !app_assoc, bytes_Compare_app_same.
  cbn [app bytes_Compare].
  destruct (Z.compare_spec (byte.unsigned x) (byte.unsigned y)); lia.
Qed.

(** Zero bytes are below anything that is not all zero. *)
Lemma bytes_Compare_zeros_lt (n : nat) (r : list byte) :
  (forall m : nat, r <> repeat Byte.x00 m) ->
  bytes_Compare (repeat Byte.x00 n) r < 0.
Proof.
  revert n. induction r as [|y r IH]; intros n Hr.
  - exfalso. apply (Hr 0%nat). reflexivity.
  - destruct n as [|n]; cbn [repeat bytes_Compare]; [lia|].
    destruct (Z.compare_spec (byte.unsigned Byte.x00) (byte.unsigned y))
      as [E|L|G].
    + apply byte.unsigned_inj in E. subst y. apply IH.
      intros m Hm. apply (Hr (S m)). cbn [repeat]. now rewrite Hm.
    + lia.
    + exfalso. change (byte.unsigned Byte.x00) with 0 in G.
      unfold byte.unsigned in G. lia.
Qed.

(** ** Padded keys against a lookup key *)

Lemma padKey_ge (m : Z) (s : list byte) : 0 <= bytes_Compare (padKey m s) s.
Proof. apply bytes_Compare_app_ge. Qed.

Lemma padKey_not_lt (m : Z) (s k : list byte) :
  0 <= bytes_Compare s k -> 0 <= bytes_Compare (padKey m s) k.
Proof.
  intros H. pose proof (padKey_ge m s) as Hp.
  rewrite (bytes_Compare_antisym k (padKey m s)).
  assert (bytes_Compare k (padKey m s) <= 0); [|lia].
  apply (bytes_Compare_le_trans k s).
  - rewrite (bytes_Compare_antisym s k). lia.
  - rewrite (bytes_Compare_antisym (padKey m s) s). lia.
Qed.

Lemma padKey_lt (m : Z) (s k : list byte) :
  bytes_Compare s k < 0 -> ~ zeroExt s k ->
  bytes_Compare (padKey m s) k < 0.
Proof.
  intros H Hz. unfold padKey.
  destruct (bytes_Compare_lt_cases s k H)
    as [(r & Hr & ->)|(p & x & y & a' & b' & -> & -> & L)].
  - rewrite bytes_Compare_app_same. apply bytes_Compare_zeros_lt.
    intros n ->. apply Hz. exists n. split; [|reflexivity].
    destruct n; [now contradiction Hr|lia].
  - rewrite <- (app_nil_r (p ++ y :: b')). now apply bytes_Compare_differ.
Qed.

(** Unless the lookup key is a stored key followed by zero bytes, comparing
    it with the padded key is comparing it with the key. *)
Lemma padKey_lt_iff (m : Z) (s k : list byte) :
  ~ zeroExt s k ->
  (bytes_Compare (padKey m s) k < 0 <-> bytes_Compare s k < 0).
Proof.
  intros Hz. split; [|intros H; now apply padKey_lt].
  intros H. destruct (Z.lt_ge_cases (bytes_Compare s k) 0) as [|G]; [assumption|].
  pose proof (padKey_not_lt m s k G). lia.
Qed.

(** ** The search loop *)

Lemma middle_bounds (low high : Z) :
  low < high -> low <= low + Z.quot (high - low) 2 < high.
Proof.
  intros H. rewrite Z.quot_div_nonneg by lia.
  assert (0 <= (high - low) / 2) by (apply Z.div_pos; lia).
  assert ((high - low) / 2 < high - low) by (apply Z.div_lt; lia).
  lia.
Qed.

(** One turn of [for low < high { ... }]. *)
Lemma searchLoop_step (s : SSTable) (key : list byte) (low high : Z) :
  searchLoop s key low high =
  if low <? high
  then let middle := low + Z.quot (high - low) 2 in
       match recordKey s middle with
       | None => None
       | Some midKey =>
           if bytes_Compare midKey key <? 0
           then searchLoop s key (middle + 1) high
           else searchLoop s key low middle
       end
  else Some high.
Proof.
  rewrite searchLoop_equation_1.
  destruct (Z_lt_dec low high) as [L|G]; cbn [searchLoop_unfold_clause_1].
  - replace (low <? high) with true by (symmetry; now apply Z.ltb_lt).
    reflexivity.
  - replace (low <? high) with false by (symmetry; apply Z.ltb_ge; lia).
    reflexivity.
Qed.

Section Search.
Variables (s : SSTable) (key : list byte) (n : Z) (P : Z -> list byte).

(** The index holds [n] records, and record [i] holds the padded key
    [P i]. *)
Hypothesis records : forall i, 0 <= i < n -> recordKey s i = Some (P i).

(** The records below the lookup key come first. *)
Hypothesis below_first :
  forall i j, 0 <= i <= j -> j < n ->
              bytes_Compare (P j) key < 0 -> bytes_Compare (P i) key < 0.

(** The loop ends without leaving the buffer, on the first record in
    [low..high] that is not below the key, or on [high]. *)
Lemma searchLoop_spec (low high : Z) :
  0 <= low -> low <= high -> high < n ->
  exists h,
    searchLoop s key low high = Some h /\
    low <= h <= high /\
    (forall i, low <= i < h -> bytes_Compare (P i) key < 0) /\
    (h < high -> 0 <= bytes_Compare (P h) key).
Proof.
  remember (Z.to_nat (high - low)) as d eqn:Hd.
  revert low high Hd.
  induction d as [d IH] using lt_wf_ind. intros low high Hd H0 Hle Hn.
  rewrite searchLoop_step.
  destruct (Z.ltb_spec low high) as [L|G].
  - cbn zeta. pose proof (middle_bounds low high L) as Hm.
    set (middle := low + Z.quot (high - low) 2) in *.
    rewrite records by lia.
    destruct (Z.ltb_spec (bytes_Compare (P middle) key) 0) as [Lt|Ge].
    + destruct (IH (Z.to_nat (high - (middle + 1))) ltac:(lia)
                  (middle + 1) high eq_refl ltac:(lia) ltac:(lia) Hn)
        as (h & E & Hh & Hb & Ha).
      exists h. split; [exact E|]. split; [lia|]. split; [|exact Ha].
      intros i Hi. destruct (Z.le_gt_cases i middle) as [Hlo|Hhi].
      * apply (below_first i middle); [lia|lia|exact Lt].
      * apply Hb. lia.
    + destruct (IH (Z.to_nat (middle - low)) ltac:(lia)
                  low middle eq_refl H0 ltac:(lia) ltac:(lia))
        as (h & E & Hh & Hb & Ha).
      exists h. split; [exact E|]. split; [lia|]. split; [exact Hb|].
      intros _. destruct (Z.eq_dec h middle) as [->|Hne]; [exact Ge|].
      apply Ha. lia.
  - exists high. split; [reflexivity|]. split; [lia|]. split; intros; lia.
Qed.
End Search.

(** ** Where a record and its index entry lie *)

Lemma entriesRegion_app (e1 e2 : list KV) :
  entriesRegion (e1 ++ e2) = entriesRegion e1 ++ entriesRegion e2.
Proof. apply flat_map_app. Qed.

Lemma indexRegion_app (m : Z) (a b : list (list byte * Z)) :
  indexRegion m (a ++ b) = indexRegion m a ++ indexRegion m b.
Proof. apply flat_map_app. Qed.

Lemma indexRegion_cons (m : Z) (e : list byte * Z) (r : list (list byte * Z)) :
  indexRegion m (e :: r) = indexRecord m e ++ indexRegion m r.
Proof. reflexivity. Qed.

Lemma indexOf_app (base : Z) (e1 e2 : list KV) :
  indexOf base (e1 ++ e2)
  = indexOf base e1 ++ indexOf (base + len (entriesRegion e1)) e2.
Proof.
  revert base. induction e1 as [|kv e1 IH]; intros base.
  - cbn [app indexOf entriesRegion flat_map]. now rewrite len_nil, Z.add_0_r.
  - cbn [app indexOf]. rewrite IH, entriesRegion_cons, len_app.
    now rewrite Z.add_assoc.
Qed.

Section Record.
Variables (fmt : byte) (now : Z) (e1 e2 : list KV) (kv : KV).

Let es := e1 ++ kv :: e2.
Let t := tableOf fmt es now.
Let i := Z.of_nat (length e1).
Let off := 5 + len (entriesRegion e1).

Hypothesis fits : encodedSize es <= MaxUint32.

Lemma record_bounds :
  0 <= off /\ off + 8 + len (Key kv) <= MaxUint32 /\
  len (Key kv) <= maxLen es /\ 0 <= len (Key kv).
Proof.
  pose proof (len_nonneg (entriesRegion e1)).
  pose proof (len_nonneg (entriesRegion e2)).
  pose proof (len_nonneg (Key kv)). pose proof (len_nonneg (Value kv)).
  pose proof (maxLen_nonneg es).
  assert (len (Key kv) <= maxLen es)
    by (apply maxLen_In; unfold es; apply in_elt).
  unfold off. unfold encodedSize in fits. unfold es in fits at 1.
  rewrite entriesRegion_app, entriesRegion_cons, !len_app, len_encodeEntry
    in fits.
  repeat split; try lia; nia.
Qed.

(** The data buffer around index record [i]. *)
Lemma data_at_record :
  exists pre post,
    data t = pre ++ padKey (maxLen es) (Key kv) ++ le_split 4 (uint32 off)
                 ++ post /\
    len pre = i * (maxKeyLength t + 4) + indexOffset t.
Proof.
  exists ((fmt :: le_split 4 (encodedSize es)) ++ entriesRegion es ++
          indexRegion (maxLen es) (indexOf 5 e1)),
         (indexRegion (maxLen es)
            (indexOf (5 + len (entriesRegion e1) + len (encodeEntry kv)) e2)).
  split.
  - cbn [t tableOf data]. unfold layout. unfold es at 4.
    rewrite indexOf_app, indexRegion_app. cbn [indexOf].
    rewrite indexRegion_cons. unfold indexRecord. cbn [fst snd app].
    fold off. now rewrite <- !app_assoc.
  - rewrite !len_app, len_cons, len_le_split, len_indexRegion, length_indexOf.
    + cbn [t tableOf maxKeyLength indexOffset]. unfold i. lia.
    + intros e He. apply indexOf_In_key in He. destruct He as (x & Hx & ->).
      apply maxLen_In. unfold es. apply in_or_app. now left.
Qed.

(** Index record [i] holds the padded key of the entry. *)
Lemma record_key : recordKey t i = Some (padKey (maxLen es) (Key kv)).
Proof.
  destruct data_at_record as (pre & post & Hd & Hl).
  destruct record_bounds as (_ & _ & Hk & _).
  unfold recordKey. rewrite Hd.
  apply slice_middle; [now rewrite Hl|]. now rewrite len_padKey.
Qed.

(** After it comes the entry's offset. *)
Lemma record_offset :
  encoding.ReadUint32FromBufferLE (data t)
    (i * (maxKeyLength t + 4) + indexOffset t + maxKeyLength t)
  = Some (off, i * (maxKeyLength t + 4) + indexOffset t + maxKeyLength t + 4).
Proof.
  destruct data_at_record as (pre & post & Hd & Hl).
  destruct record_bounds as (H0 & Hm & Hk & Hk0).
  rewrite Hd, app_assoc, read32_middle.
  - do 2 f_equal. fold (uint32 (uint32 off)).
    rewrite !(uint32_small off); lia.
  - rewrite len_app, len_padKey by assumption. rewrite Hl. reflexivity.
Qed.

(** At that offset of the buffer lies the entry's key behind its length. *)
Lemma entry_key : keyAt (data t) off = Some (Key kv).
Proof.
  destruct record_bounds as (H0 & Hm & Hk & Hk0).
  assert (Hd : data t =
               ((fmt :: le_split 4 (encodedSize es)) ++ entriesRegion e1)
               ++ le_split 4 (uint32 (len (Key kv)))
               ++ Key kv
               ++ (le_split 4 (uint32 (len (Value kv))) ++ Value kv
                   ++ entriesRegion e2
                   ++ indexRegion (maxLen es) (indexOf 5 es))).
  { cbn [t tableOf data]. unfold layout. unfold es at 2.
    rewrite entriesRegion_app, entriesRegion_cons. unfold encodeEntry.
    cbn [app]. now rewrite <- !app_assoc. }
  assert (Hl : len ((fmt :: le_split 4 (encodedSize es)) ++ entriesRegion e1)
               = off)
    by (rewrite len_app, len_cons, len_le_split; unfold off; lia).
  unfold keyAt. rewrite Hd, read32_middle by (now rewrite Hl).
  fold (uint32 (uint32 (len (Key kv)))).
  rewrite !(uint32_small (len (Key kv))) by lia.
  rewrite app_assoc. apply slice_middle; [|reflexivity].
  rewrite len_app, len_le_split, Hl. reflexivity.
Qed.
End Record.

(** ** Order of the stored keys *)

Lemma validFrom_head_lt (k : list byte) (es : list KV) :
  validFrom (Some k) es = true ->
  forall kv, In kv es -> bytes_Compare k (Key kv) < 0.
Proof.
  revert k. induction es as [|x es IH]; intros k H kv Hin; [destruct Hin|].
  cbn [validFrom outOfOrder] in H. rewrite !andb_true_iff in H.
  destruct H as ((Hc & _) & Hr). apply negb_true_iff, Z.leb_gt in Hc.
  destruct Hin as [<-|Hin]; [exact Hc|].
  apply (bytes_Compare_lt_le_trans k (Key x)); [exact Hc|].
  pose proof (IH (Key x) Hr kv Hin). lia.
Qed.

Lemma validFrom_nth_lt (d : KV) (prev : option (list byte)) (es : list KV) :
  validFrom prev es = true ->
  forall i j : nat, (i < j < length es)%nat ->
    bytes_Compare (Key (nth i es d)) (Key (nth j es d)) < 0.
Proof.
  revert prev. induction es as [|x es IH]; intros prev H i j Hij;
    [cbn in Hij; lia|].
  cbn [validFrom] in H. rewrite !andb_true_iff in H. destruct H as (_ & Hr).
  cbn [length] in Hij. destruct j as [|j]; [lia|]. destruct i as [|i].
  - cbn [nth]. apply (validFrom_head_lt (Key x) es Hr). apply nth_In. lia.
  - cbn [nth]. apply (IH (Some (Key x)) Hr). lia.
Qed.

Lemma validFrom_nth_le (d : KV) (prev : option (list byte)) (es : list KV) :
  validFrom prev es = true ->
  forall i j : nat, (i <= j < length es)%nat ->
    bytes_Compare (Key (nth i es d)) (Key (nth j es d)) <= 0.
Proof.
  intros H i j Hij. destruct (Nat.eq_dec i j) as [->|Hne].
  - rewrite bytes_Compare_refl. lia.
  - pose proof (validFrom_nth_lt d prev es H i j). lia.
Qed.

Lemma run_smallestKey (st : buildState) (es : list KV) :
  b_first st = false -> b_smallestKey (run st es) = b_smallestKey st.
Proof.
  revert st. induction es as [|kv es IH]; intros st H; [reflexivity|].
  rewrite run_cons, IH by reflexivity. cbn [advance b_smallestKey].
  now rewrite H.
Qed.

Lemma builtOf_smallestKey (fmt : byte) (now : Z) (kv : KV) (es : list KV) :
  smallestKey (builtOf fmt (kv :: es) now) = Key kv.
Proof.
  cbn [builtOf smallestKey]. rewrite run_cons, run_smallestKey; reflexivity.
Qed.

(** ** findOffset on a built table *)

(** Index record [i] of a built table: its padded key, its offset field, and
    the key found at that offset. *)
Lemma table_record (fmt : byte) (now : Z) (es : list KV) (i : nat) :
  encodedSize es <= MaxUint32 ->
  (i < length es)%nat ->
  let t := tableOf fmt es now in
  let kv := nth i es (mkKV [] []) in
  let valueStart :=
    Z.of_nat i * (maxKeyLength t + 4) + indexOffset t + maxKeyLength t in
  exists off,
    recordKey t (Z.of_nat i) = Some (padKey (maxLen es) (Key kv)) /\
    encoding.ReadUint32FromBufferLE (data t) valueStart
      = Some (off, valueStart + 4) /\
    keyAt (data t) off = Some (Key kv) /\
    (i = 0%nat -> off = 5).
Proof.
  intros fits Hi t kv valueStart.
  destruct (nth_split es (mkKV [] []) Hi) as (l1 & l2 & Hes & Hl).
  fold kv in Hes. clearbody kv. subst valueStart t. subst es i.
  exists (5 + len (entriesRegion l1)).
  split; [now apply record_key|].
  split; [now apply record_offset|].
  split; [now apply entry_key|].
  intros E0. destruct l1; [reflexivity|discriminate].
Qed.

Section Lookup.
Variables (fmt : byte) (now : Z) (es : list KV) (k : list byte).

Let t := tableOf fmt es now.
Let n := Z.of_nat (length es).
Let keyN (i : Z) : list byte := Key (nth (Z.to_nat i) es (mkKV [] [])).
Let P (i : Z) : list byte := padKey (maxLen es) (keyN i).

Hypothesis fits : encodedSize es <= MaxUint32.
Hypothesis nonempty : es <> [].

(** The records below the lookup key come first. *)
Hypothesis below_first :
  forall i j, 0 <= i <= j -> j < n ->
              bytes_Compare (P j) k < 0 -> bytes_Compare (P i) k < 0.

Lemma numEntries_positive : 0 < n.
Proof. unfold n. destruct es; [congruence|cbn [length]; lia]. Qed.

Lemma table_recordKey (i : Z) : 0 <= i < n -> recordKey t i = Some (P i).
Proof.
  intros Hi.
  destruct (table_record fmt now es (Z.to_nat i) fits
              ltac:(unfold n in Hi; lia)) as (off & R & _).
  rewrite Z2Nat.id in R by lia. exact R.
Qed.

(** The loop stops on the last record or on the first one that is not
    below the key. *)
Lemma search_result :
  exists h,
    searchLoop t k 0 (n - 1) = Some h /\
    0 <= h <= n - 1 /\
    (forall i, 0 <= i < h -> bytes_Compare (P i) k < 0) /\
    (h < n - 1 -> 0 <= bytes_Compare (P h) k).
Proof.
  pose proof numEntries_positive.
  apply (searchLoop_spec t k n P table_recordKey below_first); lia.
Qed.

Lemma findOffset_not_found :
  (forall i, 0 <= i < n -> bytes_Compare (P i) k < 0) ->
  findOffset t k = Returned (-1).
Proof.
  intros Hall. pose proof numEntries_positive as Hn.
  destruct search_result as (h & E & Hh & Hb & Ha).
  assert (h = n - 1).
  { destruct (Z.eq_dec h (n - 1)) as [|Hne]; [assumption|].
    pose proof (Ha ltac:(lia)). pose proof (Hall h ltac:(lia)). lia. }
  subst h. unfold findOffset.
  change (numEntries t) with n. rewrite E, Z.eqb_refl.
  rewrite table_recordKey by lia.
  replace (bytes_Compare (P (n - 1)) k <? 0) with true; [reflexivity|].
  symmetry. apply Z.ltb_lt. apply Hall. lia.
Qed.

Lemma findOffset_found (h : Z) :
  0 <= h < n ->
  (forall i, 0 <= i < h -> bytes_Compare (P i) k < 0) ->
  0 <= bytes_Compare (P h) k ->
  exists off,
    findOffset t k = Returned off /\
    keyAt (data t) off = Some (keyN h) /\
    (h = 0 -> off = 5).
Proof.
  intros Hh Hbelow Hge.
  destruct search_result as (h0 & E & Hh0 & Hb & Ha).
  assert (h0 = h).
  { destruct (Z.lt_trichotomy h0 h) as [L|[Eq|G]]; [|exact Eq|].
    - pose proof (Ha ltac:(lia)). pose proof (Hbelow h0 ltac:(lia)). lia.
    - pose proof (Hb h ltac:(lia)). lia. }
  subst h0.
  destruct (table_record fmt now es (Z.to_nat h) fits
              ltac:(unfold n in Hh; lia)) as (off & R & O & K & Z0).
  cbn zeta in O. rewrite Z2Nat.id in R, O by lia.
  exists off. split; [|split; [exact K|intros ->; now apply Z0]].
  unfold findOffset. change (numEntries t) with n. rewrite E.
  fold t in O. rewrite O.
  destruct (h =? n - 1); [|reflexivity].
  rewrite table_recordKey by lia.
  replace (bytes_Compare (P h) k <? 0) with false; [reflexivity|].
  symmetry. apply Z.ltb_ge. lia.
Qed.
End Lookup.

Lemma not_zeroExt_self (k : list byte) : ~ zeroExt k k.
Proof.
  intros (n & Hn & E). apply (f_equal (@length byte)) in E.
  rewrite length_app, repeat_length in E. lia.
Qed.

(** C1, as the code has it.  The search compares the lookup key with the
    zero-padded keys of the index, so a stored key followed by zero bytes is
    not told apart from that stored key.  For a built table and a lookup key
    [k] that is not a stored key followed by one or more zero bytes:
    if [k] is stored, [findOffset] returns an offset at which the
    length-prefixed key is [k]; if the table is not empty and [k] is above
    every stored key, it returns -1.  For any [k] below the smallest key of a
    non-empty table it returns the offset of the smallest key. *)
Theorem findOffset_lower_bound (fmt : byte) (h1 h2 : N) (it : Iterator)
        (now : Z) (b : built) (k : list byte) :
  BuildSSTable fmt h1 h2 it now = Returned b ->
  (In k (map Key (items it)) ->
   (forall kv, In kv (items it) -> ~ zeroExt (Key kv) k) ->
   exists off,
     findOffset (table b) k = Returned off /\
     keyAt (data (table b)) off = Some k) /\
  (items it <> [] ->
   (forall kv, In kv (items it) -> bytes_Compare (Key kv) k < 0) ->
   (forall kv, In kv (items it) -> ~ zeroExt (Key kv) k) ->
   findOffset (table b) k = Returned (-1)) /\
  (items it <> [] ->
   bytes_Compare k (smallestKey b) < 0 ->
   (forall kv, In kv (items it) ->
               bytes_Compare (smallestKey b) (Key kv) <= 0) /\
   exists off,
     findOffset (table b) k = Returned off /\
     keyAt (data (table b)) off = Some (smallestKey b)).
Proof.
  intros H. apply BuildSSTable_inv in H. destruct H as (Hv & Hfit & ->).
  set (es := items it) in *.
  cbn [builtOf table].
  assert (Hnth : forall i, 0 <= i < Z.of_nat (length es) ->
                           In (nth (Z.to_nat i) es (mkKV [] [])) es)
    by (intros i Hi; apply nth_In; lia).
  split; [|split].
  - (* a stored key *)
    intros Hin Hz. apply in_map_iff in Hin. destruct Hin as (kv & <- & Hin).
    destruct (In_nth es kv (mkKV [] []) Hin) as (j & Hj & Ej).
    assert (Hne : es <> []) by (intros E; rewrite E in Hin; destruct Hin).
    assert (Hlt : forall i, 0 <= i < Z.of_nat (length es) ->
              (bytes_Compare (padKey (maxLen es) (Key (nth (Z.to_nat i) es (mkKV [] []))))
                 (Key kv) < 0
               <-> bytes_Compare (Key (nth (Z.to_nat i) es (mkKV [] []))) (Key kv) < 0))
      by (intros i Hi; apply padKey_lt_iff, Hz, Hnth, Hi).
    destruct (findOffset_found fmt now es (Key kv) Hfit Hne) with (h := Z.of_nat j)
      as (off & F & K & _).
    + intros i i' Hi Hi' Hp. apply Hlt in Hp; [|lia]. apply Hlt; [lia|].
      apply (bytes_Compare_le_lt_trans _ (Key (nth (Z.to_nat i') es (mkKV [] []))));
        [|exact Hp].
      apply (validFrom_nth_le (mkKV [] []) None es Hv). lia.
    + lia.
    + intros i Hi. apply Hlt; [lia|].
      pose proof (validFrom_nth_lt (mkKV [] []) None es Hv (Z.to_nat i) j ltac:(lia)) as L.
      now rewrite Ej in L.
    + rewrite Nat2Z.id. rewrite Ej. apply padKey_ge.
    + exists off. split; [exact F|]. rewrite K, Nat2Z.id. now rewrite Ej.
  - (* above every stored key *)
    intros Hne Habove Hz.
    assert (Hall : forall i, 0 <= i < Z.of_nat (length es) ->
              bytes_Compare (padKey (maxLen es) (Key (nth (Z.to_nat i) es (mkKV [] []))))
                k < 0)
      by (intros i Hi; apply padKey_lt; [apply Habove|apply Hz];
          apply Hnth, Hi).
    apply (findOffset_not_found fmt now es k Hfit Hne).
    + intros i j Hi Hj _. apply Hall. lia.
    + exact Hall.
  - (* below the smallest key *)
    intros Hne Hbelow.
    destruct es as [|kv0 rest] eqn:Ees; [congruence|]. rewrite <- Ees in *.
    assert (Hs : smallestKey (builtOf fmt es now) = Key kv0)
      by (rewrite Ees; apply builtOf_smallestKey).
    rewrite Hs in *.
    assert (E0 : nth 0 es (mkKV [] []) = kv0) by now rewrite Ees.
    assert (Hpos : 0 < Z.of_nat (length es))
      by (rewrite Ees; cbn [length]; lia).
    assert (Hmin : forall kv, In kv es -> bytes_Compare (Key kv0) (Key kv) <= 0).
    { intros kv Hin. destruct (In_nth es kv (mkKV [] []) Hin) as (j & Hj & <-).
      rewrite <- E0. apply (validFrom_nth_le (mkKV [] []) None es Hv). lia. }
    split; [exact Hmin|].
    assert (Hge : forall i, 0 <= i < Z.of_nat (length es) ->
              0 <= bytes_Compare
                     (padKey (maxLen es) (Key (nth (Z.to_nat i) es (mkKV [] [])))) k).
    { intros i Hi. apply padKey_not_lt.
      rewrite (bytes_Compare_antisym k).
      pose proof (bytes_Compare_lt_le_trans k (Key kv0) _ Hbelow
                    (Hmin _ (Hnth i Hi))). lia. }
    destruct (findOffset_found fmt now es k Hfit Hne) with (h := 0)
      as (off & F & K & _).
    + intros i j Hi Hj Hp. pose proof (Hge j ltac:(lia)). lia.
    + lia.
    + intros i Hi. lia.
    + apply Hge. lia.
    + exists off. split; [exact F|]. rewrite K. cbn [Z.to_nat].
      now rewrite E0.
Qed.

Ltac same_length_not_zeroExt :=
  let kv := fresh "kv" in
  let Hin := fresh "Hin" in
  let n := fresh "n" in
  let Hn := fresh "Hn" in
  let E := fresh "E" in
  intros kv Hin (n & Hn & E);
  apply (f_equal (@length byte)) in E;
  rewrite length_app, repeat_length in E;
  vm_compute in Hin;
  repeat (destruct Hin as [<-|Hin]; [vm_compute in E; lia|]);
  destruct Hin.

Lemma findOffset_lower_bound_witness :
  (exists off,
     findOffset (table sampleBuilt) (Byte.x62 :: versionSuffix 3) = Returned off /\
     keyAt (data (table sampleBuilt)) off = Some (Byte.x62 :: versionSuffix 3)) /\
  findOffset (table sampleBuilt) (Byte.x64 :: versionSuffix 4) = Returned (-1) /\
  (exists off,
     findOffset (table sampleBuilt) [] = Returned off /\
     keyAt (data (table sampleBuilt)) off = Some (smallestKey sampleBuilt)).
Proof.
  split; [|split].
  - destruct (findOffset_lower_bound Byte.x01 0 0 (iter_of sampleEntries)
                1700000000000 sampleBuilt (Byte.x62 :: versionSuffix 3)
                sampleBuilt_eq) as (H1 & _ & _).
    apply H1.
    + vm_compute. right. left. reflexivity.
    + same_length_not_zeroExt.
  - destruct (findOffset_lower_bound Byte.x01 0 0 (iter_of sampleEntries)
                1700000000000 sampleBuilt (Byte.x64 :: versionSuffix 4)
                sampleBuilt_eq) as (_ & H2 & _).
    apply H2.
    + vm_compute. discriminate.
    + intros kv Hin. vm_compute in Hin.
      repeat (destruct Hin as [<-|Hin]; [vm_compute; reflexivity|]).
      destruct Hin.
    + same_length_not_zeroExt.
  - destruct (findOffset_lower_bound Byte.x01 0 0 (iter_of sampleEntries)
                1700000000000 sampleBuilt [] sampleBuilt_eq) as (_ & _ & H3).
    apply H3.
    + vm_compute. discriminate.
    + vm_compute. reflexivity.
Defined.

(** The scenario of the sample entries: the key [b] is found at its own
    record, and a key between [a] and [b] resolves to the record of [b]. *)
Example sample_lookups :
  findOffset (table sampleBuilt) (Byte.x62 :: versionSuffix 3) = Returned 24 /\
  findOffset (table sampleBuilt) (Byte.x61 :: versionSuffix 4) = Returned 24 /\
  keyAt (data (table sampleBuilt)) 24 = Some (Byte.x62 :: versionSuffix 3).
Proof. vm_compute. repeat split. Qed.

(** C1 as stated fails.  With the stored keys [K] and [K] followed by a zero
    byte, looking up the second stored key resolves to the record of the
    first; and with the largest key shorter than another one, a lookup key
    above every stored key (the largest one followed by a zero byte) is not
    reported as not found. *)
Lemma findOffset_counterexample :
  (let b := builtOf Byte.x01 prefixEntries 0 in
   let k := Byte.x61 :: versionSuffix 5 ++ [Byte.x00] in
   BuildSSTable Byte.x01 0 0 (iter_of prefixEntries) 0 = Returned b /\
   In k (map Key prefixEntries) /\
   findOffset (table b) k = Returned 5 /\
   keyAt (data (table b)) 5 = Some (Byte.x61 :: versionSuffix 5) /\
   keyAt (data (table b)) 5 <> Some k) /\
  (let b := builtOf Byte.x01 shortLastEntries 0 in
   let k := Byte.x62 :: versionSuffix 3 ++ [Byte.x00] in
   BuildSSTable Byte.x01 0 0 (iter_of shortLastEntries) 0 = Returned b /\
   (forall kv, In kv shortLastEntries -> bytes_Compare (Key kv) k < 0) /\
   findOffset (table b) k = Returned 24 /\
   findOffset (table b) k <> Returned (-1)).
Proof.
  split.
  - cbn zeta. split; [vm_compute; reflexivity|].
    split; [right; left; reflexivity|].
    vm_compute. repeat split. discriminate.
  - cbn zeta. split; [vm_compute; reflexivity|].
    split.
    + intros kv [<-|[<-|[]]]; vm_compute; reflexivity.
    + vm_compute. split; [reflexivity|discriminate].
Qed.

(** * Further properties of the table code *)

(** ** Every way [BuildSSTable] can end *)

Lemma buildLoop_outcome (it : Iterator) (st : buildState) :
  if validFrom (b_prevKey st) (items it)
  then buildLoop it st =
       match iterError it with
       | Some e => Failed e
       | None => Returned (run st (items it))
       end
  else buildLoop it st = Panicked KeysNotInOrder \/
       buildLoop it st = Panicked SliceBounds.
Proof.
  revert st. induction it as [|e|kv rest IH|kv e]; intros st;
    cbn [buildLoop items validFrom iterError]; try reflexivity.
  - rewrite buildStep_cases.
    destruct (outOfOrder (b_prevKey st) (Key kv)); cbn [negb andb obind];
      [now left|].
    destruct (Z.ltb_spec (len (Key kv)) 8) as [Hlt|Hge].
    + replace (8 <=? len (Key kv)) with false by (symmetry; apply Z.leb_gt; lia).
      cbn [obind]. now right.
    + replace (8 <=? len (Key kv)) with true by (symmetry; apply Z.leb_le; lia).
      cbn [obind run]. specialize (IH (advance st kv (keyVersion (Key kv)))).
      cbn [advance b_prevKey] in IH. exact IH.
  - rewrite buildStep_cases.
    destruct (outOfOrder (b_prevKey st) (Key kv)); cbn [negb andb obind];
      [now left|].
    destruct (Z.ltb_spec (len (Key kv)) 8) as [Hlt|Hge].
    + replace (8 <=? len (Key kv)) with false by (symmetry; apply Z.leb_gt; lia).
      cbn [obind]. now right.
    + replace (8 <=? len (Key kv)) with true by (symmetry; apply Z.leb_le; lia).
      reflexivity.
Qed.

(** X1: an error of the iterator comes back unchanged, whether [IsValid] or
    [Next] reports it, when the entries handed out before it pass the checks
    of the loop. *)
Theorem iterator_error_propagates (fmt : byte) (h1 h2 : N) (it : Iterator)
        (now : Z) (e : error) :
  iterError it = Some e ->
  validFrom None (items it) = true ->
  BuildSSTable fmt h1 h2 it now = Failed e.
Proof.
  intros He Hv. unfold BuildSSTable.
  pose proof (buildLoop_outcome it (initBuild fmt)) as H.
  cbn [initBuild b_prevKey] in H. rewrite Hv, He in H.
  now rewrite H.
Qed.

Lemma iterator_error_propagates_witness :
  BuildSSTable Byte.x01 0 0
    (Item (mkKV (Byte.x61 :: versionSuffix 5) [])
       (ItemNextFails (mkKV (Byte.x62 :: versionSuffix 3) [])
          (errors_New "connection reset"))) 0
  = Failed (errors_New "connection reset").
Proof.
  apply iterator_error_propagates; vm_compute; reflexivity.
Defined.

(** X2: the three ways [BuildSSTable] ends without a table.  An error is
    the iterator's own or ["SSTable too big"], the latter only when the
    iterator did not fail and the data buffer is longer than [MaxUint32]; a
    panic happens exactly when some entry fails the order check or is too
    short for a version, and is never an index out of range. *)
Theorem BuildSSTable_failures (fmt : byte) (h1 h2 : N) (it : Iterator)
        (now : Z) :
  (forall e, BuildSSTable fmt h1 h2 it now = Failed e ->
     iterError it = Some e \/
     (iterError it = None /\ e = errors_New "SSTable too big" /\
      MaxUint32 < encodedSize (items it))) /\
  (forall p, BuildSSTable fmt h1 h2 it now = Panicked p ->
     validFrom None (items it) = false /\
     (p = KeysNotInOrder \/ p = SliceBounds)) /\
  (validFrom None (items it) = false ->
   exists p, BuildSSTable fmt h1 h2 it now = Panicked p).
Proof.
  unfold BuildSSTable.
  pose proof (buildLoop_outcome it (initBuild fmt)) as H.
  cbn [initBuild b_prevKey] in H.
  destruct (validFrom None (items it)) eqn:Hv.
  - rewrite H. destruct (iterError it) as [e0|]; cbn [obind].
    + split; [|split]; try discriminate. intros e [= <-]. now left.
    + rewrite finishBuild_run.
      destruct (Z.ltb_spec MaxUint32 (encodedSize (items it)));
        (split; [|split]); try discriminate.
      intros e [= <-]. right. auto.
  - destruct H as [E|E]; rewrite E; cbn [obind];
      (split; [|split]); try discriminate.
    + intros p [= <-]. auto.
    + intros _. eauto.
    + intros p [= <-]. auto.
    + intros _. eauto.
Qed.

(** ** The summary values and the size of a built table *)

(** X3: an iterator without entries gives a table: no entries, no deletes,
    the 5 bytes of the header as data with the pointer and the index offset
    both 5, [nil] keys, and the version bounds left at their initial values,
    [minVersion] above [maxVersion]. *)
Theorem BuildSSTable_empty (fmt : byte) (h1 h2 : N) (now : Z) :
  BuildSSTable fmt h1 h2 Exhausted now =
  Returned
    {| table := {| format := fmt; maxKeyLength := 0; numEntries := 0;
                   numDeletes := 0; indexOffset := 5;
                   creationTime := uint64 now;
                   data := fmt :: le_split 4 5 |};
       smallestKey := []; largestKey := [];
       minVersion := MaxUint64; maxVersion := 0 |}.
Proof.
  change Exhausted with (iter_of []).
  rewrite BuildSSTable_valid by reflexivity. reflexivity.
Qed.

Lemma last_default {A : Type} (l : list A) (d d' : A) :
  l <> [] -> last l d = last l d'.
Proof.
  induction l as [|x l IH]; [congruence|]. intros _.
  destruct l as [|y l]; [reflexivity|].
  cbn [last] in IH |- *. apply IH. discriminate.
Qed.

Lemma last_as_nth {A : Type} (l : list A) (x : A) :
  last l x = nth (length l) (x :: l) x.
Proof.
  revert x. induction l as [|y l IH]; intros x; [reflexivity|].
  change (nth (length (y :: l)) (x :: y :: l) x)
    with (nth (length l) (y :: l) x).
  rewrite (nth_indep (y :: l) x y) by (cbn [length]; lia).
  rewrite <- (IH y).
  destruct l as [|z l]; [reflexivity|].
  change (last (y :: z :: l) x) with (last (z :: l) x).
  apply last_default. discriminate.
Qed.

Lemma last_map_Key (rest : list KV) (kv0 : KV) (d : list byte) :
  last (map Key (kv0 :: rest)) d = Key (last rest kv0).
Proof.
  revert kv0. induction rest as [|x rest IH]; intros kv0; [reflexivity|].
  change (last (map Key (kv0 :: x :: rest)) d)
    with (last (map Key (x :: rest)) d).
  rewrite IH. destruct rest as [|z rest]; [reflexivity|].
  change (last (x :: z :: rest) kv0) with (last (z :: rest) kv0).
  f_equal. apply last_default. discriminate.
Qed.

Lemma run_largestKey (st : buildState) (es : list KV) :
  b_largestKey (run st es) = last (map Key es) (b_largestKey st).
Proof.
  revert st. induction es as [|kv es IH]; intros st; [reflexivity|].
  rewrite run_cons, IH. cbn [advance b_largestKey map].
  destruct es as [|k es]; [reflexivity|].
  cbn [map]. change (last (Key kv :: Key k :: map Key es) (b_largestKey st))
    with (last (Key k :: map Key es) (b_largestKey st)).
  apply last_default. discriminate.
Qed.

(** X4: for a non-empty sequence, the [smallestKey] and [largestKey]
    returned are the first and the last key handed out, and every key of the
    table lies between them. *)
Theorem key_range (fmt : byte) (h1 h2 : N) (it : Iterator) (now : Z)
        (b : built) (kv0 : KV) (rest : list KV) :
  BuildSSTable fmt h1 h2 it now = Returned b ->
  items it = kv0 :: rest ->
  smallestKey b = Key kv0 /\
  largestKey b = Key (last rest kv0) /\
  (forall kv, In kv (items it) ->
     bytes_Compare (smallestKey b) (Key kv) <= 0 /\
     bytes_Compare (Key kv) (largestKey b) <= 0).
Proof.
  intros H Hi. apply BuildSSTable_inv in H. destruct H as (Hv & _ & ->).
  rewrite Hi in *.
  assert (Hs : smallestKey (builtOf fmt (kv0 :: rest) now) = Key kv0)
    by apply builtOf_smallestKey.
  assert (Hl : largestKey (builtOf fmt (kv0 :: rest) now)
               = Key (last rest kv0)).
  { cbn [builtOf largestKey]. rewrite run_largestKey. apply last_map_Key. }
  rewrite Hs, Hl. split; [reflexivity|]. split; [reflexivity|].
  intros kv Hin. destruct (In_nth _ _ kv0 Hin) as (j & Hj & <-).
  split.
  - change (Key kv0) with (Key (nth 0 (kv0 :: rest) kv0)) at 1.
    apply (validFrom_nth_le kv0 None _ Hv). lia.
  - rewrite last_as_nth. apply (validFrom_nth_le kv0 None _ Hv).
    cbn [length] in Hj |- *. lia.
Qed.

Lemma key_range_witness :
  smallestKey sampleBuilt = Byte.x61 :: versionSuffix 5 /\
  largestKey sampleBuilt = Byte.x63 :: versionSuffix 9 /\
  (forall kv, In kv (items (iter_of sampleEntries)) ->
     bytes_Compare (smallestKey sampleBuilt) (Key kv) <= 0 /\
     bytes_Compare (Key kv) (largestKey sampleBuilt) <= 0).
Proof.
  exact (key_range Byte.x01 0 0 (iter_of sampleEntries) 1700000000000
           sampleBuilt _ _ sampleBuilt_eq eq_refl).
Defined.

Lemma maxLen_attained (es : list KV) :
  es <> [] -> exists kv, In kv es /\ len (Key kv) = maxLen es.
Proof.
  induction es as [|x es IH]; [congruence|]. intros _.
  cbn [maxLen fold_right]. fold (maxLen es).
  destruct es as [|y es'].
  - exists x. split; [now left|]. cbn. pose proof (len_nonneg (Key x)). lia.
  - destruct (IH ltac:(discriminate)) as (kv & Hin & E).
    destruct (Z.le_gt_cases (maxLen (y :: es')) (len (Key x))).
    + exists x. split; [now left|lia].
    + exists kv. split; [now right|lia].
Qed.

(** X5: [maxKeyLength] of a built table is the length of its longest key:
    no key is longer, and a non-empty table has a key of that length. *)
Theorem maxKeyLength_is_longest (fmt : byte) (h1 h2 : N) (it : Iterator)
        (now : Z) (b : built) :
  BuildSSTable fmt h1 h2 it now = Returned b ->
  (forall kv, In kv (items it) -> len (Key kv) <= maxKeyLength (table b)) /\
  (items it <> [] ->
   exists kv, In kv (items it) /\ len (Key kv) = maxKeyLength (table b)).
Proof.
  intros H. apply BuildSSTable_inv in H. destruct H as (_ & _ & ->).
  cbn [builtOf table tableOf maxKeyLength]. split.
  - intros kv. apply maxLen_In.
  - apply maxLen_attained.
Qed.

Lemma maxKeyLength_is_longest_witness :
  (forall kv, In kv (items (iter_of sampleEntries)) ->
     len (Key kv) <= maxKeyLength (table sampleBuilt)) /\
  (items (iter_of sampleEntries) <> [] ->
   exists kv, In kv (items (iter_of sampleEntries)) /\
              len (Key kv) = maxKeyLength (table sampleBuilt)).
Proof.
  exact (maxKeyLength_is_longest Byte.x01 0 0 (iter_of sampleEntries)
           1700000000000 sampleBuilt sampleBuilt_eq).
Defined.

Lemma len_entriesRegion (es : list KV) :
  len (entriesRegion es) = entriesSize es.
Proof.
  induction es as [|kv es IH]; [reflexivity|].
  rewrite entriesRegion_cons, len_app, len_encodeEntry, IH.
  cbn [entriesSize fold_right]. fold (entriesSize es). lia.
Qed.

(** X6: [SizeBytes] is the length of what [Serialize] returns, for every
    table.  For a built table the data buffer has 5 bytes of header, 8 bytes
    plus key and value for each entry, and [maxKeyLength + 4] bytes for each
    index record; the index starts after the entries, and nothing exceeds
    [MaxUint32]. *)
Theorem table_size (fmt : byte) (h1 h2 : N) (it : Iterator) (now : Z)
        (b : built) :
  (forall s, SizeBytes s = len (Serialize s)) /\
  (BuildSSTable fmt h1 h2 it now = Returned b ->
   indexOffset (table b) = 5 + entriesSize (items it) /\
   len (data (table b))
   = indexOffset (table b)
     + NumEntries (table b) * (maxKeyLength (table b) + 4) /\
   len (data (table b)) <= MaxUint32).
Proof.
  split.
  - intros s. unfold SizeBytes. now rewrite Serialize_eq, len_app, len_footer.
  - intros H. apply BuildSSTable_inv in H. destruct H as (_ & Hfit & ->).
    cbn [builtOf table]. unfold NumEntries.
    replace (data (tableOf fmt (items it) now)) with (layout fmt (items it))
      by reflexivity.
    rewrite len_layout.
    cbn [tableOf indexOffset numEntries maxKeyLength].
    rewrite len_entriesRegion. unfold encodedSize in *.
    rewrite len_entriesRegion in *. repeat split; lia.
Qed.

Lemma table_size_witness :
  indexOffset (table sampleBuilt) = 5 + entriesSize (items (iter_of sampleEntries)) /\
  len (data (table sampleBuilt))
  = indexOffset (table sampleBuilt)
    + NumEntries (table sampleBuilt) * (maxKeyLength (table sampleBuilt) + 4) /\
  len (data (table sampleBuilt)) <= MaxUint32.
Proof.
  exact (proj2 (table_size Byte.x01 0 0 (iter_of sampleEntries) 1700000000000
                  sampleBuilt) sampleBuilt_eq).
Defined.

(** ** The index against the entries *)

Lemma entry_value (fmt : byte) (now : Z) (e1 e2 : list KV) (kv : KV) :
  encodedSize (e1 ++ kv :: e2) <= MaxUint32 ->
  valueAt (data (tableOf fmt (e1 ++ kv :: e2) now))
          (5 + len (entriesRegion e1))
  = Some (Value kv).
Proof.
  intros fits. set (es := e1 ++ kv :: e2) in *.
  pose proof (len_nonneg (entriesRegion e1)).
  pose proof (len_nonneg (entriesRegion e2)).
  pose proof (len_nonneg (Key kv)). pose proof (len_nonneg (Value kv)).
  pose proof (maxLen_nonneg es).
  assert (Hb : 5 + len (entriesRegion e1) + 8 + len (Key kv) + len (Value kv)
               <= MaxUint32).
  { unfold encodedSize in fits. unfold es in fits at 1.
    rewrite entriesRegion_app, entriesRegion_cons, !len_app, len_encodeEntry
      in fits. nia. }
  set (pre := (fmt :: le_split 4 (encodedSize es)) ++ entriesRegion e1).
  assert (Hl : len pre = 5 + len (entriesRegion e1))
    by (unfold pre; rewrite len_app, len_cons, len_le_split; lia).
  assert (Hd : data (tableOf fmt es now) =
               pre ++ le_split 4 (uint32 (len (Key kv)))
               ++ (Key kv ++ le_split 4 (uint32 (len (Value kv)))
                   ++ Value kv
                   ++ (entriesRegion e2
                       ++ indexRegion (maxLen es) (indexOf 5 es)))).
  { cbn [tableOf data]. unfold layout, pre. unfold es at 2.
    rewrite entriesRegion_app, entriesRegion_cons. unfold encodeEntry.
    cbn [app]. now rewrite <- !app_assoc. }
  unfold valueAt. rewrite Hd, read32_middle by (now rewrite Hl).
  fold (uint32 (uint32 (len (Key kv)))).
  rewrite !(uint32_small (len (Key kv))) by lia.
  rewrite (app_assoc pre), (app_assoc (pre ++ _)).
  rewrite read32_middle by (rewrite !len_app, len_le_split, Hl; lia).
  fold (uint32 (uint32 (len (Value kv)))).
  rewrite !(uint32_small (len (Value kv))) by lia.
  rewrite (app_assoc ((pre ++ _) ++ _)).
  apply slice_middle; [|reflexivity].
  rewrite !len_app, !len_le_split, Hl. lia.
Qed.

(** X7: the index of a built table agrees with its entries.  Record [i] of
    the index holds the key of entry [i] padded with zero bytes to
    [maxKeyLength], then an offset that lies in the entries region; at that
    offset the buffer holds the key of entry [i] behind its length, then its
    value behind its length. *)
Theorem index_points_to_entries (fmt : byte) (h1 h2 : N) (it : Iterator)
        (now : Z) (b : built) (i : nat) :
  BuildSSTable fmt h1 h2 it now = Returned b ->
  (i < length (items it))%nat ->
  let t := table b in
  let kv := nth i (items it) (mkKV [] []) in
  let recordStart := Z.of_nat i * (maxKeyLength t + 4) + indexOffset t in
  exists off,
    slice (data t) recordStart (recordStart + maxKeyLength t)
      = Some (padKey (maxKeyLength t) (Key kv)) /\
    encoding.ReadUint32FromBufferLE (data t) (recordStart + maxKeyLength t)
      = Some (off, recordStart + maxKeyLength t + 4) /\
    5 <= off < indexOffset t /\
    keyAt (data t) off = Some (Key kv) /\
    valueAt (data t) off = Some (Value kv).
Proof.
  intros H Hi. apply BuildSSTable_inv in H. destruct H as (_ & Hfit & ->).
  cbn [builtOf table]. cbv zeta.
  destruct (nth_split (items it) (mkKV [] []) Hi) as (l1 & l2 & Hes & Hl).
  set (kv := nth i (items it) (mkKV [] [])) in *. clearbody kv.
  generalize dependent (items it). intros es Hi Hfit Hes. subst es i.
  exists (5 + len (entriesRegion l1)).
  split; [now apply record_key|].
  split; [now apply record_offset|].
  split.
  - cbn [tableOf indexOffset]. rewrite entriesRegion_app, entriesRegion_cons,
      !len_app, len_encodeEntry.
    pose proof (len_nonneg (entriesRegion l1)).
    pose proof (len_nonneg (entriesRegion l2)).
    pose proof (len_nonneg (Key kv)). pose proof (len_nonneg (Value kv)). lia.
  - split; [now apply entry_key|now apply entry_value].
Qed.

Lemma index_points_to_entries_witness :
  let t := table sampleBuilt in
  let kv := nth 1 (items (iter_of sampleEntries)) (mkKV [] []) in
  let recordStart := Z.of_nat 1 * (maxKeyLength t + 4) + indexOffset t in
  exists off,
    slice (data t) recordStart (recordStart + maxKeyLength t)
      = Some (padKey (maxKeyLength t) (Key kv)) /\
    encoding.ReadUint32FromBufferLE (data t) (recordStart + maxKeyLength t)
      = Some (off, recordStart + maxKeyLength t + 4) /\
    5 <= off < indexOffset t /\
    keyAt (data t) off = Some (Key kv) /\
    valueAt (data t) off = Some (Value kv).
Proof.
  apply (index_points_to_entries Byte.x01 0 0 (iter_of sampleEntries)
           1700000000000 sampleBuilt 1 sampleBuilt_eq).
  vm_compute. lia.
Defined.

(** ** findOffset for any lookup key *)

Lemma bytes_Compare_zeros_le (n : nat) (l : list byte) :
  (n <= length l)%nat -> bytes_Compare (repeat Byte.x00 n) l <= 0.
Proof.
  revert l. induction n as [|n IH]; intros l Hn.
  - destruct l; cbn; lia.
  - destruct l as [|y l]; [cbn in Hn; lia|]. cbn [repeat bytes_Compare].
    destruct (Z.compare_spec (byte.unsigned Byte.x00) (byte.unsigned y))
      as [E|L|G]; try lia.
    + apply IH. cbn [length] in Hn. lia.
    + exfalso. change (byte.unsigned Byte.x00) with 0 in G.
      unfold byte.unsigned in G. lia.
Qed.

(** Padding keeps the order of two keys, or makes them equal. *)
Lemma padKey_mono (m : Z) (a b : list byte) :
  bytes_Compare a b < 0 -> len b <= m ->
  bytes_Compare (padKey m a) (padKey m b) <= 0.
Proof.
  intros H Hb. unfold padKey.
  destruct (bytes_Compare_lt_cases a b H)
    as [(r & Hr & ->)|(p & x & y & a' & b' & -> & -> & L)].
  - rewrite <- app_assoc, bytes_Compare_app_same.
    apply bytes_Compare_zeros_le. rewrite len_app in *.
    rewrite length_app, repeat_length. unfold len in *. lia.
  - pose proof (bytes_Compare_differ p a' b'
                  (repeat Byte.x00 (Z.to_nat (m - len (p ++ x :: a'))))
                  (repeat Byte.x00 (Z.to_nat (m - len (p ++ y :: b'))))
                  x y L). lia.
Qed.

(** X8: on a non-empty built table [findOffset] never panics, whatever the
    lookup key.  It compares the key with the zero-padded keys of the index
    and returns -1 when all of them are below it, and otherwise the offset
    of the first entry whose padded key is not below it. *)
Theorem findOffset_padded_lower_bound (fmt : byte) (h1 h2 : N)
        (it : Iterator) (now : Z) (b : built) (k : list byte) :
  BuildSSTable fmt h1 h2 it now = Returned b ->
  items it <> [] ->
  let t := table b in
  let padded (i : nat) :=
    padKey (maxKeyLength t) (Key (nth i (items it) (mkKV [] []))) in
  (findOffset t k = Returned (-1) /\
   forall i, (i < length (items it))%nat -> bytes_Compare (padded i) k < 0) \/
  (exists i off,
     (i < length (items it))%nat /\
     findOffset t k = Returned off /\
     keyAt (data t) off = Some (Key (nth i (items it) (mkKV [] []))) /\
     0 <= bytes_Compare (padded i) k /\
     forall j, (j < i)%nat -> bytes_Compare (padded j) k < 0).
Proof.
  intros H Hne. apply BuildSSTable_inv in H. destruct H as (Hv & Hfit & ->).
  cbn [builtOf table]. cbv zeta. cbn [tableOf maxKeyLength].
  set (es := items it) in *. set (n := Z.of_nat (length es)).
  set (P := fun i : Z =>
              padKey (maxLen es) (Key (nth (Z.to_nat i) es (mkKV [] [])))).
  assert (Hn : 0 < n) by (unfold n; destruct es; [congruence|cbn [length]; lia]).
  assert (Hmono : forall i j, 0 <= i <= j -> j < n ->
                    bytes_Compare (P j) k < 0 -> bytes_Compare (P i) k < 0).
  { intros i j Hij Hj Hp. destruct (Z.eq_dec i j) as [->|Hd]; [exact Hp|].
    apply (bytes_Compare_le_lt_trans _ (P j)); [|exact Hp].
    unfold P. apply padKey_mono.
    - apply (validFrom_nth_lt (mkKV [] []) None es Hv). unfold n in Hj. lia.
    - apply maxLen_In, nth_In. unfold n in Hj. lia. }
  pose proof (search_result fmt now es k Hfit Hne Hmono) as S.
  change (exists h,
             searchLoop (tableOf fmt es now) k 0 (n - 1) = Some h /\
             0 <= h <= n - 1 /\
             (forall i, 0 <= i < h -> bytes_Compare (P i) k < 0) /\
             (h < n - 1 -> 0 <= bytes_Compare (P h) k)) in S.
  destruct S as (h & E & Hh & Hb & Ha).
  destruct (Z.ltb_spec (bytes_Compare (P h) k) 0) as [Lt|Ge];
    [destruct (Z.eq_dec h (n - 1)) as [Eh|Nh]|].
  - left. assert (Hall : forall i, 0 <= i < n -> bytes_Compare (P i) k < 0).
    { intros i Hi. destruct (Z.eq_dec i h) as [->|Hd]; [exact Lt|].
      apply Hb. lia. }
    split; [now apply (findOffset_not_found fmt now es k Hfit Hne Hmono)|].
    intros i Hi. specialize (Hall (Z.of_nat i) ltac:(unfold n; lia)).
    unfold P in Hall. now rewrite Nat2Z.id in Hall.
  - exfalso. pose proof (Ha ltac:(lia)). lia.
  - right.
    destruct (findOffset_found fmt now es k Hfit Hne Hmono h ltac:(lia) Hb Ge)
      as (off & F & K & _).
    exists (Z.to_nat h), off. split; [unfold n in Hh; lia|].
    split; [exact F|]. split; [exact K|]. split; [exact Ge|].
    intros j Hj. specialize (Hb (Z.of_nat j) ltac:(lia)).
    unfold P in Hb. now rewrite Nat2Z.id in Hb.
Qed.

Lemma findOffset_padded_lower_bound_witness :
  let t := table sampleBuilt in
  let k := Byte.x61 :: versionSuffix 4 in
  let padded (i : nat) :=
    padKey (maxKeyLength t)
      (Key (nth i (items (iter_of sampleEntries)) (mkKV [] []))) in
  (findOffset t k = Returned (-1) /\
   forall i, (i < length (items (iter_of sampleEntries)))%nat ->
             bytes_Compare (padded i) k < 0) \/
  (exists i off,
     (i < length (items (iter_of sampleEntries)))%nat /\
     findOffset t k = Returned off /\
     keyAt (data t) off
       = Some (Key (nth i (items (iter_of sampleEntries)) (mkKV [] []))) /\
     0 <= bytes_Compare (padded i) k /\
     forall j, (j < i)%nat -> bytes_Compare (padded j) k < 0).
Proof.
  apply (findOffset_padded_lower_bound Byte.x01 0 0 (iter_of sampleEntries)
           1700000000000 sampleBuilt (Byte.x61 :: versionSuffix 4)
           sampleBuilt_eq).
  vm_compute. discriminate.
Defined.

(** X9: on the table built from no entries, [findOffset] returns -1 for
    every non-empty lookup key; for the empty key it reads the pointer of the
    header as if it were an index record and returns 5. *)
Theorem findOffset_empty_table (fmt : byte) (h1 h2 : N) (it : Iterator)
        (now : Z) (b : built) (k : list byte) :
  BuildSSTable fmt h1 h2 it now = Returned b ->
  items it = [] ->
  findOffset (table b) k =
  match k with
  | [] => Returned 5
  | _ :: _ => Returned (-1)
  end.
Proof.
  intros H Hi. apply BuildSSTable_inv in H. destruct H as (_ & _ & ->).
  rewrite Hi. unfold findOffset.
  cbn [builtOf table tableOf numEntries maxKeyLength indexOffset data].
  rewrite searchLoop_step. cbn [Z.sub Z.opp Z.add Z.ltb Z.compare Z.eqb].
  unfold recordKey.
  cbn [tableOf numEntries maxKeyLength indexOffset data entriesRegion flat_map
       len length maxLen fold_right Z.of_nat].
  destruct k as [|x k]; vm_compute; reflexivity.
Qed.

Lemma findOffset_empty_table_witness :
  findOffset (table (builtOf Byte.x01 [] 0)) [] = Returned 5 /\
  findOffset (table (builtOf Byte.x01 [] 0)) [Byte.x61] = Returned (-1).
Proof.
  split.
  - exact (findOffset_empty_table Byte.x01 0 0 Exhausted 0 _ []
             (BuildSSTable_empty Byte.x01 0 0 0) eq_refl).
  - exact (findOffset_empty_table Byte.x01 0 0 Exhausted 0 _ [Byte.x61]
             (BuildSSTable_empty Byte.x01 0 0 0) eq_refl).
Defined.

(** ** Deserialize on any buffer *)

Lemma slice_Some_split (b : list byte) (lo hi : Z) (x : list byte) :
  slice b lo hi = Some x ->
  exists pre post, b = pre ++ x ++ post /\ len pre = lo /\ len x = hi - lo.
Proof.
  unfold slice.
  destruct ((0 <=? lo) && (lo <=? hi) && (hi <=? len b)) eqn:C; [|discriminate].
  rewrite !andb_true_iff, !Z.leb_le in C. destruct C as ((H0 & H1) & H2).
  intros [= <-]. unfold len in *.
  exists (firstn (Z.to_nat lo) b),
         (skipn (Z.to_nat (hi - lo)) (skipn (Z.to_nat lo) b)).
  rewrite firstn_skipn, firstn_skipn, !length_firstn, length_skipn.
  repeat split; lia.
Qed.

Lemma app_eq_length {A : Type} (a b c d : list A) :
  a ++ b = c ++ d -> length a = length c -> a = c /\ b = d.
Proof.
  revert c. induction a as [|x a IH]; intros [|y c] H Hl;
    try discriminate; [auto|].
  cbn [app] in H. injection H as -> H. cbn [length] in Hl.
  destruct (IH c H ltac:(lia)) as [-> ->]. auto.
Qed.

(** Two adjacent slices make one. *)
Lemma slice_join (b : list byte) (lo mid hi : Z) (x y : list byte) :
  slice b lo mid = Some x -> slice b mid hi = Some y ->
  slice b lo hi = Some (x ++ y).
Proof.
  intros Hx Hy.
  destruct (slice_Some_split _ _ _ _ Hx) as (p & q & E1 & L1 & L2).
  destruct (slice_Some_split _ _ _ _ Hy) as (p' & q' & E2 & L3 & L4).
  assert (E : (p ++ x) ++ q = p' ++ y ++ q')
    by (rewrite <- app_assoc, <- E1; exact E2).
  apply app_eq_length in E.
  - destruct E as [<- ->]. rewrite E1, (app_assoc x y q').
    apply slice_middle; [now symmetry|]. rewrite len_app. lia.
  - apply Nat2Z.inj. fold (len (p ++ x)) (len p'). rewrite len_app. lia.
Qed.

(** The reads of a call of [Deserialize] that returns. *)
Lemma Deserialize_Returned (buff : list byte) (offset : Z) (s s' : SSTable)
      (next : Z) :
  Deserialize buff offset s = (s', Returned next) ->
  exists f pm ba bb bc bd be dat,
    index buff offset = Some f /\
    slice buff (offset + 1) (offset + 1 + 4) = Some pm /\
    slice buff (le_combine pm) (le_combine pm + 4) = Some ba /\
    slice buff (le_combine pm + 4) (le_combine pm + 4 + 4) = Some bb /\
    slice buff (le_combine pm + 4 + 4) (le_combine pm + 4 + 4 + 4) = Some bc /\
    slice buff (le_combine pm + 4 + 4 + 4) (le_combine pm + 4 + 4 + 4 + 4)
      = Some bd /\
    slice buff (le_combine pm + 4 + 4 + 4 + 4)
               (le_combine pm + 4 + 4 + 4 + 4 + 8) = Some be /\
    slice buff 0 (len buff - 24) = Some dat /\
    s' = mkSSTable f (le_combine ba) (le_combine bb) (le_combine bc)
                   (le_combine bd) (le_combine be) dat /\
    next = le_combine pm + 4 + 4 + 4 + 4 + 8.
Proof.
  unfold Deserialize, DeserializeWith, bind, check, assign, ret,
    encoding.ReadUint32FromBufferLE, encoding.ReadUint64FromBufferLE.
  destruct (index buff offset) as [f|]; [|discriminate].
  destruct (slice buff (offset + 1) (offset + 1 + 4)) as [pm|] eqn:E0;
    [|discriminate].
  destruct (slice buff (le_combine pm) (le_combine pm + 4)) as [ba|] eqn:E1;
    [|discriminate].
  destruct (slice buff (le_combine pm + 4) (le_combine pm + 4 + 4))
    as [bb|] eqn:E2; [|discriminate].
  destruct (slice buff (le_combine pm + 4 + 4) (le_combine pm + 4 + 4 + 4))
    as [bc|] eqn:E3; [|discriminate].
  destruct (slice buff (le_combine pm + 4 + 4 + 4)
                  (le_combine pm + 4 + 4 + 4 + 4)) as [bd|] eqn:E4;
    [|discriminate].
  destruct (slice buff (le_combine pm + 4 + 4 + 4 + 4)
                  (le_combine pm + 4 + 4 + 4 + 4 + 8)) as [be|] eqn:E5;
    [|discriminate].
  destruct (slice buff 0 (len buff - 24)) as [dat|] eqn:E6; [|discriminate].
  intros [= <- <-].
  exists f, pm, ba, bb, bc, bd, be, dat. repeat split; assumption.
Qed.

Lemma slice_length (b : list byte) (lo hi : Z) (x : list byte) :
  slice b lo hi = Some x ->
  0 <= lo /\ lo <= hi /\ hi <= len b /\ len x = hi - lo.
Proof.
  intros H. destruct (slice_Some_split _ _ _ _ H) as (p & q & -> & L1 & L2).
  pose proof (len_nonneg p). pose proof (len_nonneg x).
  pose proof (len_nonneg q). rewrite !len_app. lia.
Qed.

(** X10: the checks that [Deserialize] makes itself are the index
    [buff[offset]] and the slice [buff[:len(buff)-24]].  Whatever the read
    helpers of [encoding] do, a call that returns had its start offset inside
    the buffer and a buffer of at least 24 bytes; the format is the byte at
    the start offset, the data is the buffer less its last 24 bytes, and
    [creationTime] and the offset returned are what the 8-byte helper
    yielded.  So the call never returns on a buffer of fewer than 24 bytes
    or at a start offset outside the buffer. *)
Theorem Deserialize_own_checks (read32 read64 : reader) (buff : list byte)
        (offset : Z) (s s' : SSTable) (next : Z) :
  DeserializeWith read32 read64 buff offset s = (s', Returned next) ->
  0 <= offset < len buff /\
  24 <= len buff /\
  index buff offset = Some (format s') /\
  data s' = firstn (Z.to_nat (len buff - 24)) buff /\
  len (data s') = len buff - 24 /\
  exists at_, read64 buff at_ = Some (creationTime s', next).
Proof.
  unfold DeserializeWith, bind, check, assign, ret.
  destruct (index buff offset) as [f|] eqn:I0; [|discriminate].
  repeat match goal with
         | |- context [match read32 ?b ?o with _ => _ end] =>
             destruct (read32 b o) as [[? ?]|]; [|discriminate]
         end.
  match goal with
  | |- context [match read64 ?b ?o with _ => _ end] =>
      destruct (read64 b o) as [[v o']|] eqn:R; [|discriminate]
  end.
  destruct (slice buff 0 (len buff - 24)) as [dat|] eqn:S6; [|discriminate].
  intros [= <- <-]. cbn [format data creationTime set_data set_creationTime].
  pose proof (slice_length _ _ _ _ S6) as (_ & L1 & _ & L2).
  rewrite slice_0 in S6 by (pose proof (len_nonneg buff); lia).
  injection S6 as <-.
  unfold index in I0.
  destruct (Z.leb_spec 0 offset); destruct (Z.ltb_spec offset (len buff));
    try discriminate.
  repeat split; try lia; try assumption; try reflexivity.
  eexists. exact R.
Qed.

Lemma Deserialize_own_checks_witness :
  let buff := Serialize (table sampleBuilt) in
  0 <= 0 < len buff /\
  24 <= len buff /\
  index buff 0 = Some (format (table sampleBuilt)) /\
  data (table sampleBuilt) = firstn (Z.to_nat (len buff - 24)) buff /\
  len (data (table sampleBuilt)) = len buff - 24 /\
  exists at_, encoding.ReadUint64FromBufferLE buff at_
              = Some (creationTime (table sampleBuilt), len buff).
Proof.
  apply (Deserialize_own_checks encoding.ReadUint32FromBufferLE
           encoding.ReadUint64FromBufferLE (Serialize (table sampleBuilt)) 0
           emptySSTable (table sampleBuilt)
           (len (Serialize (table sampleBuilt)))).
  vm_compute. reflexivity.
Defined.

(** X11: [Serialize] undoes [Deserialize].  When a call of [Deserialize]
    returns the length of the buffer, whatever the start offset, serializing
    the table it filled in gives back the buffer, byte for byte. *)
Theorem Serialize_Deserialize (buff : list byte) (offset : Z)
        (s s' : SSTable) :
  Deserialize buff offset s = (s', Returned (len buff)) ->
  Serialize s' = buff.
Proof.
  intros H. apply Deserialize_Returned in H.
  destruct H as (f & pm & ba & bb & bc & bd & be & dat
                 & _ & _ & S1 & S2 & S3 & S4 & S5 & S6 & -> & En).
  rewrite Serialize_eq. unfold footer.
  cbn [data maxKeyLength numEntries numDeletes indexOffset creationTime].
  pose proof (slice_length _ _ _ _ S1) as (_ & _ & _ & L1).
  pose proof (slice_length _ _ _ _ S2) as (_ & _ & _ & L2).
  pose proof (slice_length _ _ _ _ S3) as (_ & _ & _ & L3).
  pose proof (slice_length _ _ _ _ S4) as (_ & _ & _ & L4).
  pose proof (slice_length _ _ _ _ S5) as (_ & _ & _ & L5).
  rewrite (split_le_combine' ba 4), (split_le_combine' bb 4),
    (split_le_combine' bc 4), (split_le_combine' bd 4),
    (split_le_combine' be 8) by (unfold len in *; lia).
  replace (len buff - 24) with (le_combine pm) in S6 by lia.
  pose proof (slice_join _ _ _ _ _ _ S6 S1) as J1.
  pose proof (slice_join _ _ _ _ _ _ J1 S2) as J2.
  pose proof (slice_join _ _ _ _ _ _ J2 S3) as J3.
  pose proof (slice_join _ _ _ _ _ _ J3 S4) as J4.
  pose proof (slice_join _ _ _ _ _ _ J4 S5) as J5.
  rewrite <- En in J5. rewrite slice_0 in J5 by (pose proof (len_nonneg buff); lia).
  unfold len in J5 at 1. rewrite Nat2Z.id, firstn_all in J5.
  injection J5 as J5. rewrite J5. now rewrite <- !app_assoc.
Qed.

Lemma Serialize_Deserialize_witness :
  Serialize (fst (Deserialize rawBuffer 0 emptySSTable)) = rawBuffer.
Proof.
  apply (Serialize_Deserialize rawBuffer 0 emptySSTable).
  vm_compute. reflexivity.
Defined.

(** X12: what [Deserialize] leaves behind does not depend on what the
    receiver held: when a call returns, every field has been assigned from
    the buffer. *)
Theorem Deserialize_overwrites (buff : list byte) (offset : Z)
        (s1 s2 s' : SSTable) (next : Z) :
  Deserialize buff offset s1 = (s', Returned next) ->
  Deserialize buff offset s2 = (s', Returned next).
Proof.
  intros H. apply Deserialize_Returned in H.
  destruct H as (f & pm & ba & bb & bc & bd & be & dat
                 & I0 & S0 & S1 & S2 & S3 & S4 & S5 & S6 & -> & ->).
  unfold Deserialize, DeserializeWith, bind, check, assign, ret,
    encoding.ReadUint32FromBufferLE, encoding.ReadUint64FromBufferLE.
  rewrite I0, S0, S1, S2, S3, S4, S5, S6. reflexivity.
Qed.

Lemma Deserialize_overwrites_witness :
  Deserialize (Serialize (table sampleBuilt)) 0 (table (builtOf Byte.x02 [] 7))
  = (table sampleBuilt, Returned (len (Serialize (table sampleBuilt)))).
Proof.
  apply (Deserialize_overwrites (Serialize (table sampleBuilt)) 0 emptySSTable).
  vm_compute. reflexivity.
Defined.

(** * Properties of the column types *)

(** X13: [ColumnTypesEqual] holds exactly for two types of the same kind
    and, for decimals, the same precision and scale. *)
Theorem ColumnTypesEqual_iff (ct1 ct2 : types.ColumnType) :
  types.ColumnTypesEqual ct1 ct2 = true <-> ct1 = ct2.
Proof.
  unfold types.ColumnTypesEqual.
  destruct ct1 as [id1|p1 s1], ct2 as [id2|p2 s2];
    cbn [types.ID types.asDecimal].
  - destruct (Z.eqb_spec id1 id2) as [->|Hne]; cbn [negb];
      split; intros H; try reflexivity; try discriminate; congruence.
  - destruct (id1 =? types.ColumnTypeIDDecimal); cbn [negb];
      split; intros H; discriminate.
  - destruct (types.ColumnTypeIDDecimal =? id2); cbn [negb];
      split; intros H; discriminate.
  - rewrite Z.eqb_refl. cbn [negb].
    rewrite andb_true_iff, !Z.eqb_eq. split.
    + intros [-> ->]. reflexivity.
    + intros [= -> ->]. auto.
Qed.

(** What [parseDecimalType] returns without error is a decimal type with a
    precision from 1 to 38 and a scale from 0 to the precision. *)
Lemma parseDecimalType_valid (s : string) (ct : types.ColumnType) :
  types.parseDecimalType s = types.Ok ct ->
  exists p sc, ct = types.DecimalType p sc /\ 1 <= p <= 38 /\ 0 <= sc <= p.
Proof.
  unfold types.parseDecimalType.
  destruct (8 <? types.slen s); [|discriminate].
  destruct (3 <=? _); [|discriminate].
  destruct (negb _); [|discriminate].
  destruct (types.Atoi _) as [p|]; [|discriminate].
  destruct (Z.ltb_spec p 1); [discriminate|].
  destruct (Z.ltb_spec 38 p); [discriminate|]. cbn [orb].
  destruct (types.Atoi _) as [sc|]; [|discriminate].
  destruct (Z.ltb_spec sc 0); [discriminate|].
  destruct (Z.ltb_spec 38 sc); [discriminate|]. cbn [orb].
  destruct (Z.ltb_spec p sc); [discriminate|].
  intros [= <-]. exists p, sc. repeat split; lia.
Qed.

(** X14: a type that [StringToColumnType] returns is one of the six plain
    types or a decimal with a precision from 1 to 38 and a scale from 0 to
    the precision, and its [String()] does not panic. *)
Theorem StringToColumnType_valid (s : string) (ct : types.ColumnType) :
  types.StringToColumnType s = types.Ok ct ->
  types.validType ct /\ exists str, types.String_ ct = types.Ok str.
Proof.
  unfold types.StringToColumnType.
  repeat match goal with
         | |- context [String.eqb s ?x] => destruct (String.eqb s x)
         end;
    try (intros [= <-]; split; [vm_compute; intuition discriminate|];
         eexists; vm_compute; reflexivity).
  destruct (prefix _ _); [|discriminate].
  intros H. apply parseDecimalType_valid in H.
  destruct H as (p & sc & -> & Hp & Hs).
  split; [split; assumption|]. eexists. reflexivity.
Qed.

Lemma StringToColumnType_valid_witness :
  types.validType (types.DecimalType 10 2) /\
  exists str, types.String_ (types.DecimalType 10 2) = types.Ok str.
Proof.
  apply (StringToColumnType_valid "decimal( 10 , 2 )").
  vm_compute. reflexivity.
Defined.

(** The decimal types of the valid range, tried one by one. *)
Lemma decimal_round_trip_checked :
  forallb
    (fun p =>
       forallb
         (fun sc =>
            match types.String_ (types.DecimalType (Z.of_nat p) (Z.of_nat sc)) with
            | types.Ok str =>
                match types.StringToColumnType str with
                | types.Ok (types.DecimalType p' sc') =>
                    (p' =? Z.of_nat p) && (sc' =? Z.of_nat sc)
                | _ => false
                end
            | _ => false
            end)
         (seq 0 (S p)))
    (seq 1 38) = true.
Proof. vm_compute. reflexivity. Qed.

(** X15: the text of a valid type parses back to the type:
    [StringToColumnType(ct.String())] is [ct] for the six plain types and for
    every decimal with a precision from 1 to 38 and a scale from 0 to the
    precision. *)
Theorem String_round_trip (ct : types.ColumnType) :
  types.validType ct ->
  exists str,
    types.String_ ct = types.Ok str /\
    types.StringToColumnType str = types.Ok ct.
Proof.
  destruct ct as [id|p sc]; cbn [types.validType].
  - unfold types.ColumnTypeIDDecimal. intros [Hd Hr].
    assert (H : id = 1 \/ id = 2 \/ id = 3 \/ id = 5 \/ id = 6 \/ id = 7)
      by lia.
    destruct H as [-> | [-> | [-> | [-> | [-> | ->]]]]];
      (eexists; split; [reflexivity|vm_compute; reflexivity]).
  - intros [Hp Hs].
    pose proof decimal_round_trip_checked as C.
    rewrite forallb_forall in C.
    specialize (C (Z.to_nat p) ltac:(apply in_seq; lia)).
    rewrite forallb_forall in C.
    specialize (C (Z.to_nat sc) ltac:(apply in_seq; lia)).
    rewrite !Z2Nat.id in C by lia.
    destruct (types.String_ (types.DecimalType p sc)) as [str| |];
      try discriminate.
    exists str. split; [reflexivity|].
    destruct (types.StringToColumnType str) as [[|p' sc']| |];
      try discriminate.
    apply andb_true_iff in C. destruct C as [E1 E2].
    apply Z.eqb_eq in E1, E2. now subst.
Qed.

Lemma String_round_trip_witness :
  exists str,
    types.String_ (types.DecimalType 38 38) = types.Ok str /\
    types.StringToColumnType str = types.Ok (types.DecimalType 38 38).
Proof.
  apply (String_round_trip (types.DecimalType 38 38)).
  cbn. lia.
Defined.

Lemma string_length_append (a b : string) :
  String.length (a ++ b) = (String.length a + String.length b)%nat.
Proof. induction a as [|c a IH]; cbn; [reflexivity|now rewrite IH]. Qed.

Lemma string_append_assoc (a b c : string) :
  ((a ++ b) ++ c = a ++ (b ++ c))%string.
Proof. induction a as [|x a IH]; cbn; [reflexivity|now rewrite IH]. Qed.

Lemma substring_0_append (b x : string) :
  substring 0 (String.length b) (b ++ x) = b.
Proof.
  induction b as [|c b IH]; cbn; [destruct x; reflexivity|now rewrite IH].
Qed.

(** What [parseDecimalType] takes for the arguments: the text after the
    first 8 bytes, without the last byte. *)
Lemma decimal_arguments (body : string) (c : ascii) :
  let s := ("decimal(" ++ body ++ String c "")%string in
  types.slen s = 9 + Z.of_nat (String.length body) /\
  types.strSlice s 8 (types.slen s - 1) = body.
Proof.
  cbn zeta. assert (L : types.slen ("decimal(" ++ body ++ String c "")
                        = 9 + Z.of_nat (String.length body)).
  { unfold types.slen. rewrite !string_length_append. cbn [String.length]. lia. }
  split; [exact L|]. unfold types.strSlice. rewrite L.
  replace (Z.to_nat (9 + Z.of_nat (String.length body) - 1 - 8))
    with (String.length body) by lia.
  change (Z.to_nat 8) with 8%nat. cbn [append substring].
  apply substring_0_append.
Qed.

Lemma parseDecimalType_same_arguments (s1 s2 : string) (ct : types.ColumnType) :
  types.slen s1 = types.slen s2 ->
  types.strSlice s1 8 (types.slen s1 - 1)
  = types.strSlice s2 8 (types.slen s2 - 1) ->
  types.parseDecimalType s1 = types.Ok ct ->
  types.parseDecimalType s2 = types.Ok ct.
Proof.
  intros Hl Hr. unfold types.parseDecimalType. rewrite <- Hr, <- Hl.
  destruct (8 <? types.slen s1); [|discriminate].
  destruct (3 <=? _); [|discriminate].
  destruct (negb _); [|discriminate].
  destruct (types.Atoi _) as [p|]; [|discriminate].
  destruct ((p <? 1) || (38 <? p)); [discriminate|].
  destruct (types.Atoi _) as [sc|]; [|discriminate].
  destruct ((sc <? 0) || (38 <? sc)); [discriminate|].
  destruct (p <? sc); [discriminate|].
  intros H. exact H.
Qed.

(** X16: the closing parenthesis of a decimal type is not looked at:
    [StringToColumnType] drops the last byte of the text unread, so a text
    it accepts is accepted, with the same type, with any other last byte. *)
Theorem decimal_last_byte_ignored (body : string) (c c' : ascii)
        (ct : types.ColumnType) :
  types.StringToColumnType ("decimal(" ++ body ++ String c "")
    = types.Ok ct ->
  types.StringToColumnType ("decimal(" ++ body ++ String c' "")
    = types.Ok ct.
Proof.
  unfold types.StringToColumnType. cbn [append String.eqb Ascii.eqb Bool.eqb
                                         andb prefix].
  destruct (decimal_arguments body c) as [L1 R1].
  destruct (decimal_arguments body c') as [L2 R2]. cbn zeta in *.
  cbn [append] in L1, R1, L2, R2.
  repeat match goal with
         | |- context [if ascii_dec ?a ?b then _ else _] =>
             destruct (ascii_dec a b); [|congruence]
         end.
  assert (Hp : forall s, prefix "" s = true) by (intros []; reflexivity).
  rewrite !Hp.
  apply parseDecimalType_same_arguments; congruence.
Qed.

Lemma decimal_last_byte_ignored_witness :
  types.StringToColumnType ("decimal(" ++ "10,2" ++ String "]" "")
  = types.Ok (types.DecimalType 10 2).
Proof.
  apply (decimal_last_byte_ignored "10,2" ")" "]").
  vm_compute. reflexivity.
Defined.

(** ** ColumnTypesToString *)

Lemma writeColumnTypes_names (cts : list types.ColumnType)
      (names : list string) (i n : Z) (sb : string) :
  Forall2 (fun ct name => types.String_ ct = types.Ok name) cts names ->
  n = i + Z.of_nat (length cts) ->
  types.writeColumnTypes i n cts sb
  = types.Ok (sb ++ String.concat "," names)%string.
Proof.
  intros H. revert i sb. induction H as [|ct name cts names Hs Hr IH];
    intros i sb Hn; cbn [types.writeColumnTypes String.concat].
  - f_equal. induction sb as [|c sb IHsb]; cbn; [reflexivity|now f_equal].
  - rewrite Hs. destruct Hr as [|ct2 name2 cts2 names2 Hs2 Hr2].
    + cbn [length] in Hn. replace (i =? n - 1) with true
        by (symmetry; apply Z.eqb_eq; lia).
      reflexivity.
    + cbn [length] in Hn. replace (i =? n - 1) with false
        by (symmetry; apply Z.eqb_neq; lia).
      cbn [negb]. rewrite IH by (cbn [length]; lia).
      now rewrite !string_append_assoc.
Qed.

Lemma String_panic_message (ct : types.ColumnType) :
  (forall e, types.String_ ct <> types.Err e) /\
  (forall msg, types.String_ ct = types.Panic msg ->
               msg = "unexpected type"%string).
Proof.
  destruct ct as [id|p sc]; cbn [types.String_]; [|split; discriminate].
  repeat match goal with
         | |- context [if ?c then _ else _] => destruct c
         end; split; try discriminate.
  now intros msg [= <-].
Qed.

Lemma writeColumnTypes_panics (cts : list types.ColumnType) (i n : Z)
      (sb : string) :
  (exists ct msg, In ct cts /\ types.String_ ct = types.Panic msg) ->
  types.writeColumnTypes i n cts sb = types.Panic "unexpected type".
Proof.
  revert i sb.
  induction cts as [|ct cts IH]; intros i sb (x & msg & Hin & Hp);
    [destruct Hin|].
  cbn [types.writeColumnTypes].
  destruct (String_panic_message ct) as [He Hm].
  destruct (types.String_ ct) as [str|e|m] eqn:E.
  - apply IH. destruct Hin as [->|Hin]; [congruence|]. eauto.
  - now contradiction (He e).
  - now rewrite (Hm m eq_refl).
Qed.

(** X17: [ColumnTypesToString] puts the texts of the types one after the
    other with one comma between two of them, none at the end, and gives the
    empty text for no type; when the [String()] of some type panics, it
    panics with the same message. *)
Theorem ColumnTypesToString_joins (cts : list types.ColumnType) :
  (forall names,
     Forall2 (fun ct name => types.String_ ct = types.Ok name) cts names ->
     types.ColumnTypesToString cts = types.Ok (String.concat "," names)) /\
  ((exists ct msg, In ct cts /\ types.String_ ct = types.Panic msg) ->
   types.ColumnTypesToString cts = types.Panic "unexpected type").
Proof.
  split.
  - intros names H. unfold types.ColumnTypesToString.
    now rewrite (writeColumnTypes_names cts names 0 _ "" H).
  - intros H. unfold types.ColumnTypesToString.
    now apply writeColumnTypes_panics.
Qed.

Example ColumnTypesToString_sample :
  types.ColumnTypesToString
    [types.ColumnTypeInt; types.DecimalType 10 2; types.ColumnTypeTimestamp]
  = types.Ok "int,decimal(10,2),timestamp"%string.
Proof. vm_compute. reflexivity. Qed.
